(** * ImageResolutionFixer: the resizing node of image_resolution_fixer.py

    A shallow embedding of [ImageResolutionFixer] and the properties its
    specification states about it.

    - Python integers are [Z]; Python floats are the rationals they denote,
      produced by an explicit round-to-nearest-even step ([Float.round]) at
      every arithmetic operation, binary64 for Python floats and binary32 for
      the [float32] tensors.
    - 8-bit channels are [Byte.byte]; an RGB image is its size and a pixel
      function; a batch is the list of its frames.
    - Exceptions are values of [exn] carried by the [result] monad.
    - The operations of PIL, numpy, torch and cv2 that the node calls are
      written out as those libraries define them; the resampling kernels
      themselves are a parameter. *)

From Stdlib Require Import ZArith QArith Qround Qpower Qabs Qreduction.
From Stdlib Require Import Lia Lqa List Bool.
From Stdlib Require Import Strings.String Strings.Byte.
From Stdlib Require Import Floats.SpecFloat.
Import ListNotations.

Open Scope Z_scope.

(** ** Binary floating point *)

Module Float.

(** A format is a precision and the exponent of its smallest subnormal.  The
    dimensions of an image stay far below 2^1024, so infinities and NaN are
    left out. *)
Record format : Set := Format { prec : Z; emin : Z }.

Definition binary64 : format := Format 53 (-1074).
Definition binary32 : format := Format 24 (-149).

Definition pow2 (e : Z) : Q := (2 ^ e)%Q.

(** [flog2 x] is the binade of a positive [x]: 2^k <= x < 2^(k+1). *)
Definition flog2 (x : Q) : Z :=
  let n := Qnum x in
  let d := Zpos (Qden x) in
  if d <=? n then Z.log2 (n / d) else - Z.log2_up ((d + n - 1) / n).

(** Nearest integer, ties to even. *)
Definition rint (y : Q) : Z :=
  let f := Qfloor y in
  match (y - inject_Z f ?= 1 # 2)%Q with
  | Lt => f
  | Gt => f + 1
  | Eq => if Z.even f then f else f + 1
  end.

(** Exponent of the unit in the last place of the binade of [x]. *)
Definition ulp_exp (fmt : format) (x : Q) : Z :=
  Z.max (flog2 x - (prec fmt - 1)) (emin fmt).

Definition round_pos (fmt : format) (x : Q) : Q :=
  let e := ulp_exp fmt x in
  Qred (inject_Z (rint (x / pow2 e)) * pow2 e).

(** Round to nearest, ties to even, in format [fmt]. *)
Definition round (fmt : format) (x : Q) : Q :=
  match Qnum x with
  | Z0 => 0%Q
  | Zpos _ => round_pos fmt x
  | Zneg _ => Qred (- round_pos fmt (- x))
  end.

(** [int(x)] and [astype] of an integer type: truncation toward zero. *)
Definition trunc (x : Q) : Z :=
  if Qle_bool 0 x then Qfloor x else Qceiling x.

(** [math.ceil]. *)
Definition ceil (x : Q) : Z := Qceiling x.

(** Python's [round(x)] on a float: nearest integer, ties to even. *)
Definition py_round (x : Q) : Z := rint x.

(** Python's [min(a, b)] and [max(a, b)]: the first argument unless the
    second is strictly smaller (resp. larger). *)
Definition fmin (a b : Q) : Q :=
  match (b ?= a)%Q with Lt => b | _ => a end.

Definition fmax (a b : Q) : Q :=
  match (b ?= a)%Q with Gt => b | _ => a end.

(** The value of a finite [spec_float] of the Standard Library's IEEE 754
    specification, used to cross-check [round]. *)
Definition SF2Q (f : spec_float) : option Q :=
  match f with
  | S754_zero _ => Some 0%Q
  | S754_finite s m e =>
      Some (Qred ((if s then -1 else 1) * inject_Z (Zpos m) * pow2 e))
  | _ => None
  end.

Definition SFofpos (p : positive) : spec_float := S754_finite false p 0.

End Float.

(** ** Exceptions *)

Inductive exn : Set :=
| ZeroDivisionError   (* division by zero *)
| UnboundLocalError   (* a local variable read before assignment *)
| ValueError          (* raised by PIL *)
| RuntimeError        (* raised by torch *)
| CvError.            (* cv2.error *)

Inductive result (A : Type) : Type :=
| Ok (a : A)
| Raise (e : exn).

Arguments Ok {A} a.
Arguments Raise {A} e.

Definition bind {A B : Type} (r : result A) (k : A -> result B) : result B :=
  match r with
  | Ok a => k a
  | Raise e => Raise e
  end.

Notation "x <- c ;; k" := (bind c (fun x => k))
  (at level 61, c at next level, right associativity).
Notation "' p <- c ;; k" := (bind c (fun x => match x with p => k end))
  (at level 61, p pattern, c at next level, right associativity).

(** ** Python arithmetic *)

Module Py.

(** [float(a)] for an integer [a]. *)
Definition of_int (a : Z) : Q := Float.round Float.binary64 (inject_Z a).

(** [a / b] on integers: the correctly rounded quotient. *)
Definition truediv (a b : Z) : result Q :=
  if b =? 0 then Raise ZeroDivisionError
  else Ok (Float.round Float.binary64 (inject_Z a / inject_Z b)).

(** [a * x] for an integer [a] and a float [x]. *)
Definition mul_int_float (a : Z) (x : Q) : Q :=
  Float.round Float.binary64 (of_int a * x).

End Py.

(** *** Checks of the rounding model against the Standard Library *)

Definition Qeq_opt (a : option Q) (b : Q) : bool :=
  match a with
  | Some q => Qeq_bool q b
  | None => false
  end.

(** [a / b] in binary64, by [SFdiv] and by [Py.truediv]. *)
Definition check_div64 (a b : positive) : bool :=
  match Py.truediv (Zpos a) (Zpos b) with
  | Ok q =>
      Qeq_opt (Float.SF2Q (SFdiv 53 1024 (Float.SFofpos a) (Float.SFofpos b)))
        q
  | Raise _ => false
  end.

(** [a * (t / a)] in binary64, by [SFmul] and by [Py.mul_int_float]. *)
Definition check_mul64 (a t : positive) : bool :=
  match Py.truediv (Zpos t) (Zpos a) with
  | Ok q =>
      Qeq_opt
        (Float.SF2Q
           (SFmul 53 1024 (Float.SFofpos a)
              (SFdiv 53 1024 (Float.SFofpos t) (Float.SFofpos a))))
        (Py.mul_int_float (Zpos a) q)
  | Raise _ => false
  end.

(** [k / 255] in binary32, by [SFdiv] and by [Float.round]. *)
Definition check_div32 (k : positive) : bool :=
  Qeq_opt (Float.SF2Q (SFdiv 24 128 (Float.SFofpos k) (Float.SFofpos 255)))
    (Float.round Float.binary32 (Zpos k # 255)).

Definition positives (n : nat) : list positive :=
  List.map Pos.of_nat (List.seq 1 n).

(** ** Images and tensors *)

Definition uint8 : Set := byte.

Definition uint8_of_Z (z : Z) : uint8 :=
  match Byte.of_N (Z.to_N (z mod 256)) with
  | Some b => b
  | None => x00
  end.

Definition Z_of_uint8 (b : uint8) : Z := Z.of_N (Byte.to_N b).

(** An RGB pixel. *)
Definition pixel : Set := (uint8 * uint8 * uint8)%type.

Definition black : pixel := (x00, x00, x00).

(** A PIL image in mode RGB, or the [uint8] array of shape (height, width, 3)
    it converts to and from; [getpixel im x y] is the pixel of column [x] and
    row [y]. *)
Record image : Type := Image {
  width : Z;
  height : Z;
  getpixel : Z -> Z -> pixel
}.

Definition size (im : image) : Z * Z := (width im, height im).

Definition inside (im : image) (x y : Z) : bool :=
  (0 <=? x) && (x <? width im) && (0 <=? y) && (y <? height im).

(** A [float32] value is the rational it denotes. *)
Definition fpixel : Type := (Q * Q * Q)%type.

(** One element of a batch: a tensor of shape (rows, cols, 3), read by row
    and column. *)
Record frame : Type := Frame {
  rows : Z;
  cols : Z;
  at_ : Z -> Z -> fpixel
}.

(** A batch of shape (B, H, W, 3) is the list of its B frames; in a tensor
    they all have the shape (H, W). *)
Definition tensor : Type := list frame.

Definition shape (f : frame) : Z * Z := (rows f, cols f).

Definition uniform (t : tensor) : Prop :=
  exists h w, Forall (fun f => shape f = (h, w)) t.

(** *** numpy and torch conversions *)

Module Np.

(** [(x * 255).astype(np.uint8)] on a [float32]: the product is rounded to
    [float32], truncated, and kept modulo 256. *)
Definition quantize (x : Q) : uint8 :=
  uint8_of_Z (Float.trunc (Float.round Float.binary32 (x * 255))).

(** [k.astype(np.float32) / 255.0]. *)
Definition dequantize (k : uint8) : Q :=
  Float.round Float.binary32 (inject_Z (Z_of_uint8 k) / 255).

Definition map_pixel {A B : Type} (f : A -> B) (p : A * A * A) : B * B * B :=
  let '(r, g, b) := p in (f r, f g, f b).

(** [Image.fromarray((t.numpy() * 255).astype(np.uint8))]. *)
Definition to_pil (f : frame) : image :=
  {| width := cols f;
     height := rows f;
     getpixel := fun x y => map_pixel quantize (at_ f y x) |}.

(** [torch.from_numpy(np.array(im).astype(np.float32) / 255.0)]. *)
Definition to_tensor (im : image) : frame :=
  {| rows := height im;
     cols := width im;
     at_ := fun y x => map_pixel dequantize (getpixel im x y) |}.

Definition same_shape (a b : frame) : bool :=
  (rows a =? rows b) && (cols a =? cols b).

(** [torch.stack(results, dim=0)]: a non-empty list of equal shapes. *)
Definition stack (results : list frame) : result tensor :=
  match results with
  | [] => Raise RuntimeError
  | r :: rest =>
      if forallb (same_shape r) rest then Ok results else Raise RuntimeError
  end.

End Np.

(** *** The PIL operations the node calls *)

Module PIL.

Inductive Resampling : Set :=
| NEAREST | BOX | BILINEAR | HAMMING | BICUBIC | LANCZOS.

(** [Image.new('RGB', (w, h), color)]. *)
Definition new (w h : Z) (color : pixel) : result image :=
  if (w <? 0) || (h <? 0) then Raise ValueError
  else Ok {| width := w; height := h; getpixel := fun _ _ => color |}.

(** [canvas.paste(im, (x, y))]: [im] is copied with its top-left corner at
    [(x, y)], clipped to the canvas. *)
Definition paste (canvas im : image) (x y : Z) : image :=
  {| width := width canvas;
     height := height canvas;
     getpixel := fun i j =>
       if inside im (i - x) (j - y) then getpixel im (i - x) (j - y)
       else getpixel canvas i j |}.

(** [im.crop((left, top, right, bottom))]: the window, zero where it leaves
    the image. *)
Definition crop (im : image) (left top right bottom : Z) : result image :=
  if (right <? left) || (bottom <? top) then Raise ValueError
  else Ok {| width := right - left;
             height := bottom - top;
             getpixel := fun i j =>
               if inside im (i + left) (j + top)
               then getpixel im (i + left) (j + top)
               else black |}.

Section Resize.

(** The resampling kernels are PIL's: [kernel r im w h] gives the pixels of
    [im] resampled to [w] x [h] with filter [r]. *)
Variable kernel : Resampling -> image -> Z -> Z -> Z -> Z -> pixel.

(** [im.resize((w, h), r)]: a copy when the size does not change. *)
Definition resize (im : image) (w h : Z) (r : Resampling) : result image :=
  if (width im =? w) && (height im =? h) then Ok im
  else if (w <? 1) || (h <? 1) then Raise ValueError
  else Ok {| width := w; height := h; getpixel := kernel r im w h |}.

End Resize.

End PIL.

(** *** cv2.copyMakeBorder *)

Module Cv2.

(** [borderInterpolate(p, len, BORDER_REFLECT_101)]: the index is reflected
    about the first and the last element until it falls inside. *)
Fixpoint reflect_101 (fuel : nat) (p len : Z) : Z :=
  if (0 <=? p) && (p <? len) then p
  else
    match fuel with
    | O => p
    | S fuel' =>
        reflect_101 fuel' (if p <? 0 then - p else 2 * len - 2 - p) len
    end.

Definition borderInterpolate (p len : Z) : Z :=
  if (0 <=? p) && (p <? len) then p
  else if len =? 1 then 0
  else reflect_101 (Z.to_nat (2 * Z.abs p + 2)) p len.

(** [cv2.copyMakeBorder(src, top, bottom, left, right, BORDER_REFLECT_101)]. *)
Definition copyMakeBorder (src : image) (top bottom left right : Z)
  : result image :=
  if (top <? 0) || (bottom <? 0) || (left <? 0) || (right <? 0)
  then Raise CvError
  else Ok {| width := width src + left + right;
             height := height src + top + bottom;
             getpixel := fun i j =>
               getpixel src (borderInterpolate (i - left) (width src))
                            (borderInterpolate (j - top) (height src)) |}.

End Cv2.

(** ** The node *)

Open Scope string_scope.

Definition fit_modes : list string :=
  ["smart_fill"; "letterbox"; "crop"; "fill"].

Definition methods : list string :=
  ["lanczos"; "bicubic"; "hamming"; "bilinear"; "box"; "nearest"].

Definition round_multiples : list Z :=
  [2; 4; 8; 14; 16; 28; 32; 64; 128; 256; 512]%Z.

Definition method_map : list (string * PIL.Resampling) :=
  [("lanczos", PIL.LANCZOS); ("bicubic", PIL.BICUBIC);
   ("hamming", PIL.HAMMING); ("bilinear", PIL.BILINEAR);
   ("box", PIL.BOX); ("nearest", PIL.NEAREST)].

(** [dict.get(key, default)]. *)
Fixpoint get {V : Type} (m : list (string * V)) (key : string) (default : V)
  : V :=
  match m with
  | [] => default
  | (k, v) :: m' => if String.eqb k key then v else get m' key default
  end.

Definition get_resampling_method (method_name : string) : PIL.Resampling :=
  get method_map method_name PIL.LANCZOS.

Definition round_to_multiple (value multiple : Z) : result Z :=
  q <- Py.truediv value multiple ;;
  Ok (Float.ceil q * multiple)%Z.

Definition calculate_target_dimensions (orig_width orig_height round_multiple : Z)
  : result (Z * Z) :=
  new_width <- round_to_multiple orig_width round_multiple ;;
  new_height <- round_to_multiple orig_height round_multiple ;;
  Ok (new_width, new_height).

Section Strategies.

Variable kernel : PIL.Resampling -> image -> Z -> Z -> Z -> Z -> pixel.

Definition resize_letterbox (pil_image : image) (target_width target_height : Z)
    (resampling : PIL.Resampling) : result image :=
  let '(orig_width, orig_height) := size pil_image in
  sw <- Py.truediv target_width orig_width ;;
  sh <- Py.truediv target_height orig_height ;;
  let scale := Float.fmin sw sh in
  let new_width := Float.trunc (Py.mul_int_float orig_width scale) in
  let new_height := Float.trunc (Py.mul_int_float orig_height scale) in
  resized <- PIL.resize kernel pil_image new_width new_height resampling ;;
  result <- PIL.new target_width target_height black ;;
  let paste_x := (target_width - new_width) / 2 in
  let paste_y := (target_height - new_height) / 2 in
  Ok (PIL.paste result resized paste_x paste_y).

Definition resize_crop (pil_image : image) (target_width target_height : Z)
    (resampling : PIL.Resampling) : result image :=
  let '(orig_width, orig_height) := size pil_image in
  sw <- Py.truediv target_width orig_width ;;
  sh <- Py.truediv target_height orig_height ;;
  let scale := Float.fmax sw sh in
  let new_width := Float.trunc (Py.mul_int_float orig_width scale) in
  let new_height := Float.trunc (Py.mul_int_float orig_height scale) in
  resized <- PIL.resize kernel pil_image new_width new_height resampling ;;
  let left := (new_width - target_width) / 2 in
  let top := (new_height - target_height) / 2 in
  let right := left + target_width in
  let bottom := top + target_height in
  PIL.crop resized left top right bottom.

Definition resize_fill (pil_image : image) (target_width target_height : Z)
    (resampling : PIL.Resampling) : result image :=
  PIL.resize kernel pil_image target_width target_height resampling.

Definition resize_smart_fill (pil_image : image)
    (target_width target_height : Z) (resampling : PIL.Resampling)
  : result image :=
  let '(orig_width, orig_height) := size pil_image in
  sw <- Py.truediv target_width orig_width ;;
  sh <- Py.truediv target_height orig_height ;;
  let scale := Float.fmin sw sh in
  let new_width := Float.trunc (Py.mul_int_float orig_width scale) in
  let new_height := Float.trunc (Py.mul_int_float orig_height scale) in
  resized_pil <- PIL.resize kernel pil_image new_width new_height resampling ;;
  let pad_w := target_width - new_width in
  let pad_h := target_height - new_height in
  let top := pad_h / 2 in
  let bottom := pad_h - top in
  let left := pad_w / 2 in
  let right := pad_w - left in
  Cv2.copyMakeBorder resized_pil top bottom left right.

(** The body of the loop of [resize_image] for one element of the batch:
    the image it appends and the target it leaves in [target_width] and
    [target_height]. *)
Definition resize_one (img_tensor : frame) (fit method : string)
    (round_to_multiple : Z) : result (frame * (Z * Z)) :=
  let pil_image := Np.to_pil img_tensor in
  let '(orig_width, orig_height) := size pil_image in
  '(target_width, target_height) <-
    calculate_target_dimensions orig_width orig_height round_to_multiple ;;
  let resampling := get_resampling_method method in
  result_image <-
    (if String.eqb fit "letterbox" then
       resize_letterbox pil_image target_width target_height resampling
     else if String.eqb fit "crop" then
       resize_crop pil_image target_width target_height resampling
     else if String.eqb fit "fill" then
       resize_fill pil_image target_width target_height resampling
     else if String.eqb fit "smart_fill" then
       resize_smart_fill pil_image target_width target_height resampling
     else Raise UnboundLocalError) ;;
  Ok (Np.to_tensor result_image, (target_width, target_height)).

(** The loop over the batch, with the variables it updates: the list
    [results] and the target of the last iteration. *)
Fixpoint resize_loop (image : tensor) (fit method : string)
    (round_to_multiple : Z) (results : list frame) (target : option (Z * Z))
  : result (list frame * option (Z * Z)) :=
  match image with
  | [] => Ok (results, target)
  | img_tensor :: rest =>
      '(result_tensor, tgt) <-
        resize_one img_tensor fit method round_to_multiple ;;
      resize_loop rest fit method round_to_multiple
        (results ++ [result_tensor]) (Some tgt)
  end.

Definition resize_image (image : tensor) (fit method : string)
    (round_to_multiple : Z) : result (tensor * Z * Z) :=
  '(results, target) <-
    resize_loop image fit method round_to_multiple [] None ;;
  output_tensor <- Np.stack results ;;
  match target with
  | Some (final_width, final_height) =>
      Ok (output_tensor, final_width, final_height)
  | None => Raise UnboundLocalError
  end.

End Strategies.

(** *** Names for the quantities the statements speak about *)

(** The scale [min(target_w / src_w, target_h / src_h)] of [resize_letterbox]
    and [resize_smart_fill], and the scale [max(...)] of [resize_crop]. *)
Definition fit_scale (orig_width orig_height target_width target_height : Z)
  : result Q :=
  sw <- Py.truediv target_width orig_width ;;
  sh <- Py.truediv target_height orig_height ;;
  Ok (Float.fmin sw sh).

Definition cover_scale (orig_width orig_height target_width target_height : Z)
  : result Q :=
  sw <- Py.truediv target_width orig_width ;;
  sh <- Py.truediv target_height orig_height ;;
  Ok (Float.fmax sw sh).

(** [(int(orig_width * scale), int(orig_height * scale))]. *)
Definition scaled_size (orig_width orig_height : Z) (scale : Q) : Z * Z :=
  (Float.trunc (Py.mul_int_float orig_width scale),
   Float.trunc (Py.mul_int_float orig_height scale)).

(** Two images are the same when they have the same size and the same
    pixels. *)
Definition same_image (a b : image) : Prop :=
  size a = size b /\
  forall x y, 0 <= x < width a -> 0 <= y < height a ->
    getpixel a x y = getpixel b x y.

(** The targets the iterations leave behind them, the last one last. *)
Definition targets (outs : list (frame * (Z * Z))) : list (option (Z * Z)) :=
  map (fun o => Some (snd o)) outs.

(** The frames of a valid batch: positive dimensions of at most 2^25. *)
Definition valid_frame (f : frame) : Prop :=
  (0 < rows f <= 2 ^ 25 /\ 0 < cols f <= 2 ^ 25)%Z.

(** A value of the 8-bit grid as an output tensor holds it: the [float32]
    nearest to [k/255] for an integer [k] of 0..255; it lies in [0, 1] and
    within 2^-25 of [k/255]. *)
Definition quantized (v : Q) : Prop :=
  exists k : Z,
    (0 <= k <= 255)%Z /\
    v = Float.round Float.binary32 (inject_Z k / 255) /\
    (0 <= v <= 1)%Q /\
    (Qabs (v - inject_Z k / 255) <= 1 # 33554432)%Q.

Definition dequantize_ok (k : uint8) : bool :=
  let v := Np.dequantize k in
  Qle_bool 0 v && Qle_bool v 1 &&
  Qle_bool (Qabs (v - inject_Z (Z_of_uint8 k) / 255)) (1 # 33554432).

(** The specification's wording: an exact multiple of 1/255. *)
Definition exact_multiple_of_255th (v : Q) : Prop :=
  exists k : Z, (v == inject_Z k / 255)%Q.

(** A frame of one colour, to run the node on. *)
Definition grey_frame (h w : Z) (v : Q) : frame :=
  {| rows := h; cols := w; at_ := fun _ _ => (v, v, v) |}.

(** A batch of two 100 x 50 frames. *)
Definition two_frames : tensor :=
  [grey_frame 50 100 (1 # 2); grey_frame 50 100 (1 # 4)].

(** Two frames are the same when they have the same shape and the same
    values. *)
Definition same_frame (a b : frame) : Prop :=
  shape a = shape b /\
  forall y x, (0 <= y < rows a)%Z -> (0 <= x < cols a)%Z ->
    at_ a y x = at_ b y x.

(** The closed form of a reflect-101 index on an axis of at least two
    elements: a triangle wave of period [2 * (len - 1)]. *)
Definition triangle_101 (p len : Z) : Z :=
  let period := (2 * (len - 1))%Z in
  let r := (p mod period)%Z in
  if (r <? len)%Z then r else (period - r)%Z.

(** *** The specification's wording of the scaled size *)

(** The specification gives the scaled size as
    [(round(src_w*s), round(src_h*s))]. *)
Definition spec_scaled_size (src_w src_h : Z) (s : Q) : Z * Z :=
  (Float.py_round (Py.mul_int_float src_w s),
   Float.py_round (Py.mul_int_float src_h s)).

(** An image whose pixels record their coordinates, to run the node on. *)
Definition gradient (w h : Z) : image :=
  {| width := w;
     height := h;
     getpixel := fun x y => (uint8_of_Z x, uint8_of_Z y, x00) |}.

(** A nearest-neighbour kernel, to run the node on concrete images. *)
Definition nearest_kernel (_ : PIL.Resampling) (im : image) (w h x y : Z)
  : pixel :=
  getpixel im (x * width im / w) (y * height im / h).

(** * Properties *)

Open Scope list_scope.
Open Scope Z_scope.

(** ** Rounding *)

Module FloatFacts.
Import Float.

Lemma pow2_pos e : (0 < pow2 e)%Q.
Proof. apply Qpower_0_lt. reflexivity. Qed.

Lemma pow2_add a b : (pow2 (a + b) == pow2 a * pow2 b)%Q.
Proof. apply Qpower_plus. discriminate. Qed.

Lemma pow2_opp a : (pow2 (- a) == / pow2 a)%Q.
Proof. apply Qpower_opp. Qed.

Lemma pow2_Z k : 0 <= k -> (pow2 k == inject_Z (2 ^ k))%Q.
Proof. intros H. unfold pow2. rewrite Zpower_Qpower by assumption. reflexivity. Qed.

Lemma pow2_le a b : a <= b -> (pow2 a <= pow2 b)%Q.
Proof. intros H. apply Qpower_le_compat_l; [assumption | discriminate]. Qed.

Lemma pow2_lt a b : a < b -> (pow2 a < pow2 b)%Q.
Proof. intros H. apply Qpower_lt_compat_l; [assumption | reflexivity]. Qed.

Lemma pow2_lt_inv a b : (pow2 a < pow2 b)%Q -> a < b.
Proof. intros H. apply (Qpower_lt_compat_l_inv 2); [assumption | reflexivity]. Qed.

Lemma pow2_cancel a : (pow2 a * pow2 (- a) == 1)%Q.
Proof. rewrite <- pow2_add, Z.add_opp_diag_r. reflexivity. Qed.

(** The binade of a positive rational. *)
Lemma flog2_spec x :
  (0 < x)%Q -> (pow2 (flog2 x) <= x /\ x < pow2 (flog2 x + 1))%Q.
Proof.
  destruct x as [n d]. unfold Qlt at 1. simpl. rewrite Z.mul_1_r. intros Hn.
  unfold flog2. cbn [Qnum Qden].
  destruct (Z.leb_spec (Zpos d) n) as [Hdn | Hdn].
  - assert (Hq : 0 < n / Zpos d) by (apply Z.div_str_pos; lia).
    destruct (Z.log2_spec _ Hq) as [Hlo Hhi].
    pose proof (Z.log2_nonneg (n / Zpos d)) as Hk.
    set (k := Z.log2 (n / Zpos d)) in *.
    rewrite !pow2_Z by lia. unfold Qle, Qlt. simpl. rewrite !Z.mul_1_r.
    replace (Z.succ k) with (k + 1) in Hhi by lia.
    pose proof (Z.mul_div_le n (Zpos d) ltac:(lia)).
    pose proof (Z.mul_succ_div_gt n (Zpos d) ltac:(lia)).
    split; nia.
  - assert (Hc : 1 < (Zpos d + n - 1) / n).
    { enough (2 <= (Zpos d + n - 1) / n) by lia.
      apply Z.div_le_lower_bound; lia. }
    destruct (Z.log2_up_spec _ Hc) as [Hlo Hhi].
    pose proof (Z.log2_up_pos _ Hc) as Hj.
    set (j := Z.log2_up ((Zpos d + n - 1) / n)) in *.
    pose proof (Z.mul_div_le (Zpos d + n - 1) n ltac:(lia)).
    pose proof (Z.mul_succ_div_gt (Zpos d + n - 1) n ltac:(lia)).
    split.
    + rewrite pow2_opp, (pow2_Z j) by lia.
      apply Qle_shift_inv_r.
      * replace 0%Q with (inject_Z 0) by reflexivity. rewrite <- Zlt_Qlt. lia.
      * unfold Qle. simpl. rewrite Z.mul_1_r. nia.
    + replace (- j + 1) with (- (j - 1)) by lia.
      rewrite pow2_opp, (pow2_Z (j - 1)) by lia.
      apply Qlt_shift_inv_l.
      * replace 0%Q with (inject_Z 0) by reflexivity. rewrite <- Zlt_Qlt. lia.
      * unfold Qlt. simpl. rewrite Z.mul_1_r.
        replace (Z.pred j) with (j - 1) in Hlo by lia. nia.
Qed.

(** *** Nearest integer *)

Lemma floor_bounds y :
  (inject_Z (Qfloor y) <= y /\ y < inject_Z (Qfloor y) + 1)%Q.
Proof.
  split; [apply Qfloor_le |].
  pose proof (Qlt_floor y) as H. rewrite inject_Z_plus in H. exact H.
Qed.

Lemma rint_cases y :
  (rint y = Qfloor y /\ (y - inject_Z (Qfloor y) <= 1 # 2)%Q) \/
  (rint y = Qfloor y + 1 /\ (1 # 2 <= y - inject_Z (Qfloor y))%Q).
Proof.
  unfold rint.
  destruct (Qcompare_spec (y - inject_Z (Qfloor y)) (1 # 2)) as [E | L | G].
  - destruct (Z.even (Qfloor y)); [left | right]; split; try reflexivity;
      rewrite E; apply Qle_refl.
  - left. split; [reflexivity | apply Qlt_le_weak, L].
  - right. split; [reflexivity | apply Qlt_le_weak, G].
Qed.

Lemma rint_error y : (Qabs (inject_Z (rint y) - y) <= 1 # 2)%Q.
Proof.
  destruct (floor_bounds y) as [Hlo Hhi].
  apply Qabs_Qle_condition.
  destruct (rint_cases y) as [[-> H] | [-> H]];
    rewrite ?inject_Z_plus; change (inject_Z 1) with 1%Q; split; lra.
Qed.

Lemma rint_ge_int (J : Z) y : (inject_Z J <= y)%Q -> J <= rint y.
Proof.
  intros H. apply Qfloor_resp_le in H. rewrite Qfloor_Z in H.
  destruct (rint_cases y) as [[-> _] | [-> _]]; lia.
Qed.

Lemma rint_le_int (J : Z) y : (y <= inject_Z J)%Q -> rint y <= J.
Proof.
  intros H. destruct (floor_bounds y) as [Hlo Hhi].
  destruct (rint_cases y) as [[-> _] | [-> Hr]].
  - apply Qfloor_resp_le in H. rewrite Qfloor_Z in H. exact H.
  - assert (L : (inject_Z (Qfloor y) < inject_Z J)%Q) by lra.
    rewrite <- Zlt_Qlt in L. lia.
Qed.

(** *** Rounding a positive rational *)

Lemma round_eq fmt x : (0 < x)%Q -> (round fmt x == round_pos fmt x)%Q.
Proof.
  intros x_pos.
  unfold round. destruct x as [n d]. unfold Qlt in x_pos. simpl in x_pos.
  cbn [Qnum]. destruct n; try lia. reflexivity.
Qed.

Section RoundPos.

Variable fmt : format.
Variable x : Q.
Hypothesis x_pos : (0 < x)%Q.

Variable e : Z.
Hypothesis e_def : e = ulp_exp fmt x.

Lemma round_pos_eq :
  (round_pos fmt x == inject_Z (rint (x / pow2 e)) * pow2 e)%Q.
Proof. unfold round_pos. rewrite <- e_def. apply Qred_correct. Qed.

Lemma scaled_back : (x / pow2 e * pow2 e == x)%Q.
Proof. field. pose proof (pow2_pos e). lra. Qed.

(** The result is within half a unit in the last place. *)
Lemma round_abs_error :
  (Qabs (round fmt x - x) <= (1 # 2) * pow2 e)%Q.
Proof.
  rewrite (round_eq fmt x x_pos), round_pos_eq.
  pose proof (rint_error (x / pow2 e)) as H.
  pose proof (pow2_pos e) as He.
  apply Qabs_Qle_condition in H. destruct H as [H1 H2].
  apply Qabs_Qle_condition.
  rewrite <- scaled_back at 2 4.
  set (y := (x / pow2 e)%Q) in *. set (q := inject_Z (rint y)) in *.
  split; nra.
Qed.

(** Multiples of the unit in the last place bound the result. *)
Lemma round_ge_grid (J g : Z) :
  e <= g -> (inject_Z J * pow2 g <= x)%Q ->
  (inject_Z J * pow2 g <= round fmt x)%Q.
Proof.
  intros Hg H. rewrite (round_eq fmt x x_pos), round_pos_eq.
  pose proof (pow2_pos e) as He.
  assert (Hs : (pow2 g == inject_Z (2 ^ (g - e)) * pow2 e)%Q).
  { rewrite <- pow2_Z by lia. rewrite <- pow2_add. f_equiv. lia. }
  rewrite Hs in H |- *. rewrite Qmult_assoc, <- inject_Z_mult in H |- *.
  apply Qmult_le_compat_r; [| lra].
  rewrite <- Zle_Qle. apply rint_ge_int.
  apply Qle_shift_div_l; assumption.
Qed.

Lemma round_le_grid (J g : Z) :
  e <= g -> (x <= inject_Z J * pow2 g)%Q ->
  (round fmt x <= inject_Z J * pow2 g)%Q.
Proof.
  intros Hg H. rewrite (round_eq fmt x x_pos), round_pos_eq.
  pose proof (pow2_pos e) as He.
  assert (Hs : (pow2 g == inject_Z (2 ^ (g - e)) * pow2 e)%Q).
  { rewrite <- pow2_Z by lia. rewrite <- pow2_add. f_equiv. lia. }
  rewrite Hs in H |- *. rewrite Qmult_assoc, <- inject_Z_mult in H |- *.
  apply Qmult_le_compat_r; [| lra].
  rewrite <- Zle_Qle. apply rint_le_int.
  apply Qle_shift_div_r; assumption.
Qed.

End RoundPos.

(** *** Bounds on the unit in the last place *)

Lemma ulp_exp_le fmt x g :
  (0 < x)%Q -> (x < pow2 (prec fmt + g))%Q -> emin fmt <= g ->
  ulp_exp fmt x <= g.
Proof.
  intros Hx Hlt Hg. destruct (flog2_spec x Hx) as [Hlo _].
  assert (Hk : flog2 x < prec fmt + g).
  { apply pow2_lt_inv. eapply Qle_lt_trans; eassumption. }
  unfold ulp_exp. lia.
Qed.

Lemma ulp_exp_normal fmt x :
  (pow2 (emin fmt + prec fmt - 1) <= x)%Q ->
  ulp_exp fmt x = flog2 x - (prec fmt - 1).
Proof.
  intros Hx.
  assert (Hpos : (0 < x)%Q).
  { eapply Qlt_le_trans; [apply pow2_pos | exact Hx]. }
  destruct (flog2_spec x Hpos) as [_ Hhi].
  assert (Hk : emin fmt + prec fmt - 1 < flog2 x + 1).
  { apply pow2_lt_inv. eapply Qle_lt_trans; eassumption. }
  unfold ulp_exp. lia.
Qed.

(** Relative error of rounding in the normal range. *)
Lemma round_rel_error fmt x :
  (pow2 (emin fmt + prec fmt - 1) <= x)%Q ->
  (Qabs (round fmt x - x) <= x * pow2 (- prec fmt))%Q.
Proof.
  intros Hx.
  assert (Hpos : (0 < x)%Q).
  { eapply Qlt_le_trans; [apply pow2_pos | exact Hx]. }
  eapply Qle_trans; [apply (round_abs_error fmt x Hpos _ eq_refl) |].
  rewrite (ulp_exp_normal _ _ Hx).
  destruct (flog2_spec x Hpos) as [Hlo _].
  replace (flog2 x - (prec fmt - 1)) with (flog2 x + (- prec fmt + 1)) by lia.
  rewrite !pow2_add. change (pow2 1) with 2%Q.
  pose proof (pow2_pos (- prec fmt)). pose proof (pow2_pos (flog2 x)).
  set (a := pow2 (flog2 x)) in *. set (u := pow2 (- prec fmt)) in *.
  nra.
Qed.

(** Integers, and more generally multiples of [2^g], that bound [x] bound
    its rounding. *)
Lemma round_ge_dyadic fmt x (J g : Z) :
  (0 < x)%Q -> (x < pow2 (prec fmt + g))%Q -> emin fmt <= g ->
  (inject_Z J * pow2 g <= x)%Q -> (inject_Z J * pow2 g <= round fmt x)%Q.
Proof.
  intros Hx Hlt Hg H.
  apply (round_ge_grid fmt x Hx _ eq_refl); try assumption.
  apply ulp_exp_le; assumption.
Qed.

Lemma round_le_dyadic fmt x (J g : Z) :
  (0 < x)%Q -> (x < pow2 (prec fmt + g))%Q -> emin fmt <= g ->
  (x <= inject_Z J * pow2 g)%Q -> (round fmt x <= inject_Z J * pow2 g)%Q.
Proof.
  intros Hx Hlt Hg H.
  apply (round_le_grid fmt x Hx _ eq_refl); try assumption.
  apply ulp_exp_le; assumption.
Qed.

Lemma round_ge_int fmt x (J : Z) :
  (0 < x)%Q -> (x < pow2 (prec fmt))%Q -> emin fmt <= 0 ->
  (inject_Z J <= x)%Q -> (inject_Z J <= round fmt x)%Q.
Proof.
  intros Hx Hlt Hg H.
  pose proof (round_ge_dyadic fmt x J 0 Hx) as R.
  rewrite Z.add_0_r in R. change (pow2 0) with 1%Q in R.
  rewrite Qmult_1_r in R. auto.
Qed.

Lemma round_le_int fmt x (J : Z) :
  (0 < x)%Q -> (x < pow2 (prec fmt))%Q -> emin fmt <= 0 ->
  (x <= inject_Z J)%Q -> (round fmt x <= inject_Z J)%Q.
Proof.
  intros Hx Hlt Hg H.
  pose proof (round_le_dyadic fmt x J 0 Hx) as R.
  rewrite Z.add_0_r in R. change (pow2 0) with 1%Q in R.
  rewrite Qmult_1_r in R. auto.
Qed.

(** Integers below [2^prec] are floats. *)
Lemma round_int_exact fmt (J : Z) :
  0 < J < 2 ^ prec fmt -> 0 <= prec fmt -> emin fmt <= 0 ->
  (round fmt (inject_Z J) == inject_Z J)%Q.
Proof.
  intros [H0 H1] Hp He.
  assert (Hx : (0 < inject_Z J)%Q).
  { replace 0%Q with (inject_Z 0) by reflexivity. rewrite <- Zlt_Qlt. lia. }
  assert (Hlt : (inject_Z J < pow2 (prec fmt))%Q).
  { rewrite pow2_Z by lia. rewrite <- Zlt_Qlt. lia. }
  apply Qle_antisym.
  - apply round_le_int; try assumption. apply Qle_refl.
  - apply round_ge_int; try assumption. apply Qle_refl.
Qed.

Lemma round_0 fmt : round fmt 0 = 0%Q.
Proof. reflexivity. Qed.

Lemma round_pos_nonneg fmt x : (0 < x)%Q -> (0 <= round fmt x)%Q.
Proof.
  intros Hx.
  rewrite (round_eq fmt x Hx), (round_pos_eq fmt x (ulp_exp fmt x) eq_refl).
  apply Qmult_le_0_compat; [| apply Qlt_le_weak, pow2_pos].
  replace 0%Q with (inject_Z 0) by reflexivity. rewrite <- Zle_Qle.
  apply rint_ge_int. apply Qlt_le_weak, Qlt_shift_div_l; [apply pow2_pos |].
  rewrite Qmult_0_l. exact Hx.
Qed.

(** *** Truncation, minimum and maximum *)

Lemma trunc_nonneg x : (0 <= x)%Q -> trunc x = Qfloor x.
Proof.
  intros H. unfold trunc. apply Qle_bool_iff in H. rewrite H. reflexivity.
Qed.

Lemma trunc_between x (lo hi : Z) :
  0 <= lo -> (inject_Z lo <= x)%Q -> (x < inject_Z hi + 1)%Q ->
  lo <= trunc x <= hi.
Proof.
  intros Hlo H1 H2.
  assert (H0 : (0 <= x)%Q).
  { eapply Qle_trans; [| exact H1].
    replace 0%Q with (inject_Z 0) by reflexivity. rewrite <- Zle_Qle. lia. }
  rewrite trunc_nonneg by assumption.
  destruct (floor_bounds x) as [Hf1 Hf2]. split.
  - apply Qfloor_resp_le in H1. rewrite Qfloor_Z in H1. exact H1.
  - assert (L : (inject_Z (Qfloor x) < inject_Z (hi + 1))%Q).
    { rewrite inject_Z_plus. change (inject_Z 1) with 1%Q. lra. }
    rewrite <- Zlt_Qlt in L. lia.
Qed.

Lemma fmin_cases a b :
  (fmin a b = a /\ (a <= b)%Q) \/ (fmin a b = b /\ (b < a)%Q).
Proof.
  unfold fmin. destruct (Qcompare_spec b a) as [E | L | G].
  - left. split; [reflexivity | rewrite E; apply Qle_refl].
  - right. split; [reflexivity | assumption].
  - left. split; [reflexivity | apply Qlt_le_weak; assumption].
Qed.

Lemma fmax_cases a b :
  (fmax a b = a /\ (b <= a)%Q) \/ (fmax a b = b /\ (a < b)%Q).
Proof.
  unfold fmax. destruct (Qcompare_spec b a) as [E | L | G].
  - left. split; [reflexivity | rewrite E; apply Qle_refl].
  - left. split; [reflexivity | apply Qlt_le_weak; assumption].
  - right. split; [reflexivity | assumption].
Qed.

End FloatFacts.

(** *** The rounding model against the Standard Library's IEEE 754 *)

Example round_agrees_SFdiv_48_47 :
  Float.SF2Q (SFdiv 53 1024 (Float.SFofpos 48) (Float.SFofpos 47))
  = Some (Float.round Float.binary64 (48 # 47)).
Proof. vm_compute. reflexivity. Qed.

Example round_agrees_SFmul_47 :
  Float.SF2Q (SFmul 53 1024 (Float.SFofpos 47)
                (SFdiv 53 1024 (Float.SFofpos 48) (Float.SFofpos 47)))
  = Some (Float.round Float.binary64
            (47 * Float.round Float.binary64 (48 # 47))).
Proof. vm_compute. reflexivity. Qed.

(** Every quotient of two integers up to 40 is rounded as [SFdiv] does. *)
Example truediv_agrees_SFdiv :
  forallb (fun a => forallb (check_div64 a) (positives 40)) (positives 40)
  = true.
Proof. vm_compute. reflexivity. Qed.

(** Every dimension up to 400, each target within 4 above it: the scale
    and the scaled dimension are rounded as [SFdiv] and [SFmul] do. *)
Example scaled_dimension_agrees_SFmul :
  forallb (fun a =>
             forallb (fun i => check_mul64 a (a + i)) (positives 4))
    (positives 400)
  = true.
Proof. vm_compute. reflexivity. Qed.

(** Every 8-bit value over 255 is rounded to [float32] as [SFdiv] does. *)
Example dequantize_agrees_SFdiv :
  forallb check_div32 (positives 255) = true.
Proof. vm_compute. reflexivity. Qed.

(** ** Python arithmetic on dimensions *)

Module PyFacts.
Import Float FloatFacts.

Lemma inject_Z_pos (a : Z) : 0 < a -> (0 < inject_Z a)%Q.
Proof.
  intros H. replace 0%Q with (inject_Z 0) by reflexivity.
  rewrite <- Zlt_Qlt. exact H.
Qed.

Lemma inject_Z_nonneg (a : Z) : 0 <= a -> (0 <= inject_Z a)%Q.
Proof.
  intros H. replace 0%Q with (inject_Z 0) by reflexivity.
  rewrite <- Zle_Qle. exact H.
Qed.

Lemma truediv_ok (a b : Z) :
  b <> 0 ->
  Py.truediv a b = Ok (round binary64 (inject_Z a / inject_Z b)).
Proof.
  intros H. unfold Py.truediv. apply Z.eqb_neq in H. rewrite H. reflexivity.
Qed.

Lemma of_int_exact (a : Z) :
  0 < a < 2 ^ 53 -> (Py.of_int a == inject_Z a)%Q.
Proof.
  intros H. unfold Py.of_int. apply round_int_exact; cbn; lia.
Qed.

Lemma pow2_53 : (pow2 53 == inject_Z (2 ^ 53))%Q.
Proof. apply pow2_Z. lia. Qed.

(** The quotient of two positive integers, the numerator below 2^53 and the
    denominator at most 2^53, rounds to a float with the same ceiling. *)
Lemma ceil_truediv (d m : Z) :
  0 < d < 2 ^ 53 -> 0 < m <= 2 ^ 53 ->
  ceil (round binary64 (inject_Z d / inject_Z m)) = (d + m - 1) / m.
Proof.
  intros Hd Hm.
  set (c := (d + m - 1) / m).
  assert (Hc : (c - 1) * m + 1 <= d <= c * m).
  { pose proof (Z.mul_div_le (d + m - 1) m ltac:(lia)).
    pose proof (Z.mul_succ_div_gt (d + m - 1) m ltac:(lia)).
    fold c in H, H0. nia. }
  pose proof (inject_Z_pos m ltac:(lia)) as HM.
  pose proof (inject_Z_pos d ltac:(lia)) as HD.
  set (x := (inject_Z d / inject_Z m)%Q).
  assert (Hx : (x * inject_Z m == inject_Z d)%Q) by (unfold x; field; lra).
  assert (Hxpos : (0 < x)%Q) by (apply Qlt_shift_div_l; lra).
  destruct Hc as [Hc1 Hc2].
  rewrite Zle_Qle in Hc1, Hc2.
  rewrite inject_Z_mult in Hc2.
  replace ((c - 1) * m + 1) with (c * m + - m + 1) in Hc1 by ring.
  rewrite !inject_Z_plus, inject_Z_mult, inject_Z_opp in Hc1.
  change (inject_Z 1) with 1%Q in *.
  assert (HM1 : (1 <= inject_Z m)%Q).
  { change 1%Q with (inject_Z 1). rewrite <- Zle_Qle. lia. }
  assert (HD53 : (inject_Z d < pow2 53)%Q).
  { rewrite pow2_53. rewrite <- Zlt_Qlt. lia. }
  assert (HM53 : (inject_Z m <= pow2 53)%Q).
  { rewrite pow2_53. rewrite <- Zle_Qle. lia. }
  pose proof (pow2_pos 53) as P53.
  assert (Hxd : (x <= inject_Z d)%Q).
  { unfold x. apply Qle_shift_div_r; [assumption | nra]. }
  assert (Hxc : (x <= inject_Z c)%Q).
  { unfold x. apply Qle_shift_div_r; [assumption | ]. lra. }
  assert (Hxc' : (inject_Z c - 1 + / inject_Z m <= x)%Q).
  { unfold x. apply Qle_shift_div_l; [assumption |].
    assert (E : (/ inject_Z m * inject_Z m == 1)%Q) by (field; lra).
    nra. }
  (* upper bound *)
  assert (Hup : (round binary64 x <= inject_Z c)%Q).
  { apply round_le_int; cbn [prec emin binary64]; try lia; lra. }
  (* lower bound *)
  assert (Hu : (pow2 (- 53) * pow2 53 == 1)%Q).
  { rewrite <- pow2_add. reflexivity. }
  pose proof (pow2_pos (- 53)) as Pm53.
  assert (HD1 : (1 <= inject_Z d)%Q).
  { change 1%Q with (inject_Z 1). rewrite <- Zle_Qle. lia. }
  assert (Hnorm : (pow2 (emin binary64 + prec binary64 - 1) <= x)%Q).
  { apply Qle_trans with (pow2 (- 53)).
    - apply pow2_le. cbn. lia.
    - assert (E : (pow2 (- 53) * pow2 53 <= x * pow2 53)%Q) by nra.
      nra. }
  pose proof (round_rel_error binary64 x Hnorm) as Hrel.
  apply Qabs_Qle_condition in Hrel. destruct Hrel as [Hrel _].
  cbn [prec binary64 Z.opp] in Hrel.
  set (u := pow2 (- 53)) in *. set (P := pow2 53) in *.
  set (r := round binary64 x) in *.
  assert (Hlow : (inject_Z c - 1 < r)%Q).
  { assert (Einv : (/ inject_Z m * inject_Z m == 1)%Q) by (field; lra).
    assert (E0 : (x * u * inject_Z m == inject_Z d * u)%Q).
    { rewrite <- Hx. ring. }
    assert (E1 : (inject_Z d * u < 1)%Q) by nra.
    assert (A : (1 <= (x - (inject_Z c - 1)) * inject_Z m)%Q) by nra.
    assert (B : (- (x * u * inject_Z m) <= (r - x) * inject_Z m)%Q) by nra.
    assert (E2 : (0 < (r - (inject_Z c - 1)) * inject_Z m)%Q) by nra.
    nra. }
  unfold ceil.
  apply Z.le_antisymm.
  - apply Qceiling_resp_le in Hup. rewrite Qceiling_Z in Hup. exact Hup.
  - pose proof (Qle_ceiling r) as Hr.
    assert (L : (inject_Z (c - 1) < inject_Z (Qceiling r))%Q).
    { unfold Z.sub. rewrite inject_Z_plus, inject_Z_opp.
      change (inject_Z 1) with 1%Q. lra. }
    rewrite <- Zlt_Qlt in L. lia.
Qed.

End PyFacts.

Import Float FloatFacts PyFacts.

(** ** The dimension rounder *)

Lemma round_multiples_bounds m : In m round_multiples -> 2 <= m <= 512.
Proof.
  unfold round_multiples. simpl.
  intros H; repeat (destruct H as [<- | H]; [lia |]); contradiction.
Qed.

(** On dimensions below 2^53 the float computation is the integer ceiling. *)
Lemma round_to_multiple_eq (d m : Z) :
  0 < d < 2 ^ 53 -> 0 < m <= 2 ^ 53 ->
  round_to_multiple d m = Ok ((d + m - 1) / m * m).
Proof.
  intros Hd Hm. unfold round_to_multiple.
  rewrite truediv_ok by lia. cbn [bind].
  rewrite ceil_truediv by assumption. reflexivity.
Qed.

Lemma ceil_multiple_spec (d m : Z) :
  0 < m ->
  let r := (d + m - 1) / m * m in
  (m | r) /\ d <= r /\ r - m < d /\
  ((m | d) -> r = d) /\
  (forall r', (m | r') -> d <= r' -> r <= r').
Proof.
  intros Hm r.
  pose proof (Z.mul_div_le (d + m - 1) m Hm) as H1.
  pose proof (Z.mul_succ_div_gt (d + m - 1) m Hm) as H2.
  assert (Hlo : d <= r) by (unfold r; nia).
  assert (Hhi : r - m < d) by (unfold r; nia).
  assert (Hmin : forall r', (m | r') -> d <= r' -> r <= r').
  { intros r' [k ->] Hk. unfold r.
    apply Z.mul_le_mono_nonneg_r; [lia |].
    apply Z.lt_succ_r. apply Z.div_lt_upper_bound; [lia |]. nia. }
  repeat split; try assumption.
  - exists ((d + m - 1) / m). reflexivity.
  - intros Hdiv. apply Z.le_antisymm; [| exact Hlo].
    apply Hmin; [exact Hdiv | lia].
Qed.

(** C1. For a positive source dimension [d] (below 2^53, as every image
    size is) and a multiple [m] of the allowed set, [round_to_multiple d m]
    returns the smallest multiple of [m] that is at least [d]: it is
    divisible by [m], at least [d], less than [d + m], equal to [d] when [m]
    divides [d], and no multiple of [m] from [d] on is smaller. *)
Theorem round_to_multiple_smallest (d m : Z) :
  0 < d < 2 ^ 53 -> In m round_multiples ->
  exists r,
    round_to_multiple d m = Ok r /\
    (m | r) /\ d <= r /\ r - m < d /\
    ((m | d) -> r = d) /\
    (forall r', (m | r') -> d <= r' -> r <= r').
Proof.
  intros Hd Hin. apply round_multiples_bounds in Hin.
  exists ((d + m - 1) / m * m). split.
  - apply round_to_multiple_eq; lia.
  - apply ceil_multiple_spec. lia.
Qed.

(** The dimension 100 with multiple 16. *)
Lemma round_to_multiple_smallest_witness :
  (0 < 100 < 2 ^ 53) /\ In 16 round_multiples /\
  exists r,
    round_to_multiple 100 16 = Ok r /\
    (16 | r) /\ 100 <= r /\ r - 16 < 100 /\
    ((16 | 100) -> r = 100) /\
    (forall r', (16 | r') -> 100 <= r' -> r <= r').
Proof.
  split; [lia |]. split; [simpl; tauto |].
  apply (round_to_multiple_smallest 100 16); [lia | simpl; tauto].
Defined.

(** ** Scale factors and scaled sizes *)

Lemma pow2_m53 : (pow2 (-53) * pow2 53 == 1)%Q.
Proof. rewrite <- pow2_add. reflexivity. Qed.

(** The quotient of a dimension by a smaller one: at least 1, at most the
    numerator, and within one part in 2^53 of the exact quotient. *)
Lemma truediv_ge_1 (a b : Z) :
  0 < b <= a -> a < 2 ^ 53 ->
  exists q,
    Py.truediv a b = Ok q /\
    (1 <= q)%Q /\ (q <= inject_Z a)%Q /\
    (q * inject_Z b <= inject_Z a * (1 + pow2 (-53)))%Q.
Proof.
  intros Hb Ha. eexists. split; [apply truediv_ok; lia |].
  pose proof (inject_Z_pos b ltac:(lia)) as HB.
  pose proof (inject_Z_pos a ltac:(lia)) as HA.
  assert (HBA : (inject_Z b <= inject_Z a)%Q) by (rewrite <- Zle_Qle; lia).
  assert (HB1 : (1 <= inject_Z b)%Q).
  { change 1%Q with (inject_Z 1). rewrite <- Zle_Qle. lia. }
  assert (HA53 : (inject_Z a < pow2 53)%Q).
  { rewrite pow2_53, <- Zlt_Qlt. lia. }
  set (x := (inject_Z a / inject_Z b)%Q).
  assert (Hx : (x * inject_Z b == inject_Z a)%Q) by (unfold x; field; lra).
  assert (Hx1 : (1 <= x)%Q).
  { unfold x. apply Qle_shift_div_l; [assumption | lra]. }
  assert (Hxa : (x <= inject_Z a)%Q).
  { unfold x. apply Qle_shift_div_r; [assumption | nra]. }
  assert (Hnorm : (pow2 (emin binary64 + prec binary64 - 1) <= x)%Q).
  { apply Qle_trans with (pow2 0); [apply pow2_le; cbn; lia | exact Hx1]. }
  pose proof (round_rel_error binary64 x Hnorm) as Hrel.
  apply Qabs_Qle_condition in Hrel. destruct Hrel as [_ Hrel].
  cbn [prec binary64 Z.opp] in Hrel.
  pose proof (pow2_pos (-53)) as Pu.
  repeat split.
  - change 1%Q with (inject_Z 1).
    apply round_ge_int; cbn [prec emin binary64]; try lia; try lra.
    exact Hx1.
  - apply round_le_int; cbn [prec emin binary64]; try lia; lra.
  - set (r := round binary64 x) in *. set (u := pow2 (-53)) in *.
    assert (E : (r * inject_Z b <= (x + x * u) * inject_Z b)%Q) by nra.
    nra.
Qed.

(** A dimension multiplied by a scale of at least 1 does not shrink. *)
Lemma scaled_dim_ge (ow : Z) (s : Q) :
  0 < ow -> (1 <= s)%Q -> (inject_Z ow * s < pow2 53)%Q ->
  ow <= trunc (Py.mul_int_float ow s) /\
  (inject_Z ow <= Py.mul_int_float ow s)%Q.
Proof.
  intros Ho Hs Hlt.
  pose proof (inject_Z_pos ow Ho) as HO.
  assert (Ho53 : ow < 2 ^ 53).
  { rewrite Zlt_Qlt, <- pow2_53. nra. }
  pose proof (of_int_exact ow ltac:(lia)) as Hoi.
  assert (Hge : (inject_Z ow <= Py.mul_int_float ow s)%Q).
  { unfold Py.mul_int_float.
    apply round_ge_int; cbn [prec emin binary64]; try lia; rewrite Hoi; nra. }
  split; [| exact Hge].
  rewrite trunc_nonneg by lra.
  apply Qfloor_resp_le in Hge. rewrite Qfloor_Z in Hge. exact Hge.
Qed.

(** A dimension multiplied by the quotient that fits it to its target does
    not exceed the target. *)
Lemma scaled_dim_fit (ow tw : Z) (s : Q) :
  0 < ow <= tw -> tw <= 2 ^ 51 -> (1 <= s)%Q ->
  (s * inject_Z ow <= inject_Z tw * (1 + pow2 (-53)))%Q ->
  ow <= trunc (Py.mul_int_float ow s) <= tw.
Proof.
  intros Ho Ht Hs Hle.
  pose proof (inject_Z_pos ow ltac:(lia)) as HO.
  pose proof (inject_Z_pos tw ltac:(lia)) as HT.
  pose proof (pow2_pos (-53)) as Pu. pose proof pow2_m53 as Hu.
  assert (HT51 : (inject_Z tw <= pow2 51)%Q).
  { rewrite (pow2_Z 51) by lia. rewrite <- Zle_Qle. lia. }
  assert (E53 : (pow2 53 == 4 * pow2 51)%Q).
  { change 53 with (2 + 51). rewrite pow2_add. reflexivity. }
  assert (E52 : (pow2 52 == 2 * pow2 51)%Q).
  { change 52 with (1 + 51). rewrite pow2_add. reflexivity. }
  pose proof (pow2_pos 51) as P51.
  assert (P51' : (1 <= pow2 51)%Q).
  { change 1%Q with (pow2 0). apply pow2_le. lia. }
  assert (Htu : (inject_Z tw * pow2 (-53) <= 1 # 4)%Q).
  { assert (E : (inject_Z tw * pow2 (-53) * pow2 53
                 <= (1 # 4) * pow2 53)%Q).
    { rewrite <- Qmult_assoc, Hu. lra. }
    pose proof (pow2_pos 53). nra. }
  assert (Hx : (inject_Z ow * s <= inject_Z tw + (1 # 4))%Q) by lra.
  assert (Hlt : (inject_Z ow * s < pow2 53)%Q) by lra.
  destruct (scaled_dim_ge ow s ltac:(lia) Hs Hlt) as [Hlo Hge].
  split; [exact Hlo |].
  pose proof (of_int_exact ow ltac:(lia)) as Hoi.
  assert (Hup : (Py.mul_int_float ow s
                 <= inject_Z (2 * tw + 1) * pow2 (-1))%Q).
  { unfold Py.mul_int_float.
    assert (Eh : (inject_Z (2 * tw + 1) * pow2 (-1)
                  == inject_Z tw + (1 # 2))%Q).
    { rewrite inject_Z_plus, inject_Z_mult.
      change (pow2 (-1)) with (1 # 2)%Q. change (inject_Z 2) with 2%Q.
      change (inject_Z 1) with 1%Q. field. }
    apply round_le_dyadic; cbn [prec emin binary64]; try lia;
      rewrite ?Eh, ?Hoi.
    - nra.
    - change (53 + -1) with 52. lra.
    - lra. }
  assert (Eh : (inject_Z (2 * tw + 1) * pow2 (-1)
                == inject_Z tw + (1 # 2))%Q).
  { rewrite inject_Z_plus, inject_Z_mult.
    change (pow2 (-1)) with (1 # 2)%Q. change (inject_Z 2) with 2%Q.
    change (inject_Z 1) with 1%Q. field. }
  rewrite Eh in Hup.
  apply (trunc_between _ ow tw); try lia; lra.
Qed.

(** ** The fit strategies *)

Section StrategyFacts.

Variable kernel : PIL.Resampling -> image -> Z -> Z -> Z -> Z -> pixel.

(** *** The strategies in terms of the named quantities *)

Lemma resize_letterbox_unfold im tw th r :
  resize_letterbox kernel im tw th r =
  (s <- fit_scale (width im) (height im) tw th ;;
   let '(nw, nh) := scaled_size (width im) (height im) s in
   resized <- PIL.resize kernel im nw nh r ;;
   canvas <- PIL.new tw th black ;;
   Ok (PIL.paste canvas resized ((tw - nw) / 2) ((th - nh) / 2))).
Proof.
  unfold resize_letterbox, fit_scale, scaled_size, size.
  generalize (Py.truediv tw (width im)) (Py.truediv th (height im)).
  intros [sw | e] [sh | e']; cbn [bind]; cbv beta iota zeta; reflexivity.
Qed.

Lemma resize_smart_fill_unfold im tw th r :
  resize_smart_fill kernel im tw th r =
  (s <- fit_scale (width im) (height im) tw th ;;
   let '(nw, nh) := scaled_size (width im) (height im) s in
   resized <- PIL.resize kernel im nw nh r ;;
   Cv2.copyMakeBorder resized
     ((th - nh) / 2) (th - nh - (th - nh) / 2)
     ((tw - nw) / 2) (tw - nw - (tw - nw) / 2)).
Proof.
  unfold resize_smart_fill, fit_scale, scaled_size, size.
  generalize (Py.truediv tw (width im)) (Py.truediv th (height im)).
  intros [sw | e] [sh | e']; cbn [bind]; cbv beta iota zeta; reflexivity.
Qed.

Lemma resize_crop_unfold im tw th r :
  resize_crop kernel im tw th r =
  (s <- cover_scale (width im) (height im) tw th ;;
   let '(nw, nh) := scaled_size (width im) (height im) s in
   resized <- PIL.resize kernel im nw nh r ;;
   PIL.crop resized ((nw - tw) / 2) ((nh - th) / 2)
     ((nw - tw) / 2 + tw) ((nh - th) / 2 + th)).
Proof.
  unfold resize_crop, cover_scale, scaled_size, size.
  generalize (Py.truediv tw (width im)) (Py.truediv th (height im)).
  intros [sw | e] [sh | e']; cbn [bind]; cbv beta iota zeta; reflexivity.
Qed.

(** *** PIL.resize *)

Lemma resize_ok im w h r :
  1 <= w -> 1 <= h ->
  exists resized,
    PIL.resize kernel im w h r = Ok resized /\
    width resized = w /\ height resized = h.
Proof.
  intros Hw Hh. unfold PIL.resize.
  destruct ((width im =? w) && (height im =? h)) eqn:E.
  - apply andb_true_iff in E. destruct E as [E1 E2].
    apply Z.eqb_eq in E1, E2. exists im. auto.
  - assert (E' : (w <? 1) || (h <? 1) = false).
    { apply orb_false_iff. split; apply Z.ltb_ge; assumption. }
    rewrite E'. eexists. split; [reflexivity |]. split; reflexivity.
Qed.

Lemma resize_same_size im r :
  PIL.resize kernel im (width im) (height im) r = Ok im.
Proof. unfold PIL.resize. rewrite !Z.eqb_refl. reflexivity. Qed.

(** *** The scaled content of letterbox and smart fill *)

(** When the target is at least the source, the scale is computed, the
    scaled size lies between the source and the target, and the resize to
    it succeeds. *)
Lemma fit_content im tw th r :
  0 < width im <= tw -> tw <= 2 ^ 51 ->
  0 < height im <= th -> th <= 2 ^ 51 ->
  exists s nw nh resized,
    fit_scale (width im) (height im) tw th = Ok s /\
    scaled_size (width im) (height im) s = (nw, nh) /\
    width im <= nw <= tw /\ height im <= nh <= th /\
    PIL.resize kernel im nw nh r = Ok resized /\
    width resized = nw /\ height resized = nh.
Proof.
  intros Hw Htw Hh Hth.
  destruct (truediv_ge_1 tw (width im)) as (sw & Esw & Hsw1 & _ & Hsw);
    [lia | lia |].
  destruct (truediv_ge_1 th (height im)) as (sh & Esh & Hsh1 & _ & Hsh);
    [lia | lia |].
  pose proof (inject_Z_pos (width im) ltac:(lia)) as HW.
  pose proof (inject_Z_pos (height im) ltac:(lia)) as HH.
  set (s := fmin sw sh).
  assert (Hs : (1 <= s)%Q /\ (s <= sw)%Q /\ (s <= sh)%Q).
  { unfold s. destruct (fmin_cases sw sh) as [[-> H] | [-> H]];
      repeat split; lra. }
  destruct Hs as (Hs1 & Hs2 & Hs3).
  assert (Bw : width im <= trunc (Py.mul_int_float (width im) s) <= tw).
  { apply scaled_dim_fit; try lia; try assumption. nra. }
  assert (Bh : height im <= trunc (Py.mul_int_float (height im) s) <= th).
  { apply scaled_dim_fit; try lia; try assumption. nra. }
  destruct (resize_ok im (trunc (Py.mul_int_float (width im) s))
              (trunc (Py.mul_int_float (height im) s)) r)
    as (resized & Er & Ew & Eh); [lia | lia |].
  exists s, (trunc (Py.mul_int_float (width im) s)),
    (trunc (Py.mul_int_float (height im) s)), resized.
  unfold fit_scale. rewrite Esw, Esh. cbn [bind]. fold s.
  repeat split; try assumption; try lia.
Qed.

(** *** Letterbox *)

(** C4, as the code has it. For a source of size at most the target,
    [resize_letterbox] computes [s = min(target_w / src_w, target_h / src_h)]
    in double precision, resizes the source to
    [(int(src_w*s), int(src_h*s))], the products truncated toward zero and
    not rounded, and pastes the result on a black canvas of the target size
    at [((target_w - scaled_w)//2, (target_h - scaled_h)//2)]: the scaled
    pixels appear at that offset, every other pixel is black, and the
    padding after the content is the padding before it or one pixel more. *)
Theorem letterbox_truncates_and_centers im tw th r :
  0 < width im <= tw -> tw <= 2 ^ 51 ->
  0 < height im <= th -> th <= 2 ^ 51 ->
  exists s nw nh resized out,
    fit_scale (width im) (height im) tw th = Ok s /\
    (nw, nh) = (trunc (Py.mul_int_float (width im) s),
                trunc (Py.mul_int_float (height im) s)) /\
    PIL.resize kernel im nw nh r = Ok resized /\
    size resized = (nw, nh) /\
    resize_letterbox kernel im tw th r = Ok out /\
    size out = (tw, th) /\
    (forall x y, 0 <= x < nw -> 0 <= y < nh ->
       getpixel out ((tw - nw) / 2 + x) ((th - nh) / 2 + y)
       = getpixel resized x y) /\
    (forall x y,
       ~ ((tw - nw) / 2 <= x < (tw - nw) / 2 + nw /\
          (th - nh) / 2 <= y < (th - nh) / 2 + nh) ->
       getpixel out x y = black) /\
    0 <= (tw - nw) / 2 /\
    (tw - nw) / 2 <= tw - nw - (tw - nw) / 2 <= (tw - nw) / 2 + 1 /\
    0 <= (th - nh) / 2 /\
    (th - nh) / 2 <= th - nh - (th - nh) / 2 <= (th - nh) / 2 + 1.
Proof.
  intros Hw Htw Hh Hth.
  destruct (fit_content im tw th r Hw Htw Hh Hth)
    as (s & nw & nh & resized & Es & Esz & Bw & Bh & Er & Ew & Eh).
  exists s, nw, nh, resized.
  rewrite resize_letterbox_unfold, Es. cbn [bind]. rewrite Esz, Er.
  cbn [bind]. unfold PIL.new.
  assert (E : (tw <? 0) || (th <? 0) = false).
  { apply orb_false_iff. split; apply Z.ltb_ge; lia. }
  rewrite E. cbn [bind]. eexists. split; [reflexivity |].
  split; [symmetry; exact Esz |]. split; [reflexivity |].
  split; [unfold size; congruence |]. split; [reflexivity |].
  split; [reflexivity |].
  pose proof (Z.mul_div_le (tw - nw) 2 ltac:(lia)).
  pose proof (Z.mul_succ_div_gt (tw - nw) 2 ltac:(lia)).
  pose proof (Z.mul_div_le (th - nh) 2 ltac:(lia)).
  pose proof (Z.mul_succ_div_gt (th - nh) 2 ltac:(lia)).
  split; [| split; [| repeat split; lia]].
  - intros x y Hx Hy. cbn [PIL.paste getpixel]. unfold inside.
    rewrite Ew, Eh.
    replace ((tw - nw) / 2 + x - (tw - nw) / 2) with x by lia.
    replace ((th - nh) / 2 + y - (th - nh) / 2) with y by lia.
    destruct (Z.leb_spec 0 x), (Z.ltb_spec x nw),
      (Z.leb_spec 0 y), (Z.ltb_spec y nh); try lia. reflexivity.
  - intros x y Hout. cbn [PIL.paste getpixel]. unfold inside.
    rewrite Ew, Eh.
    destruct (Z.leb_spec 0 (x - (tw - nw) / 2)),
      (Z.ltb_spec (x - (tw - nw) / 2) nw),
      (Z.leb_spec 0 (y - (th - nh) / 2)),
      (Z.ltb_spec (y - (th - nh) / 2) nh); cbn [andb]; try reflexivity.
    exfalso. apply Hout. lia.
Qed.

(** *** Smart fill *)

Lemma reflect_101_inside fuel p len :
  0 <= p < len -> Cv2.reflect_101 fuel p len = p.
Proof.
  intros H. destruct fuel; cbn [Cv2.reflect_101];
    destruct (Z.leb_spec 0 p), (Z.ltb_spec p len); try lia; reflexivity.
Qed.

Lemma borderInterpolate_inside p len :
  0 <= p < len -> Cv2.borderInterpolate p len = p.
Proof.
  intros H. unfold Cv2.borderInterpolate.
  destruct (Z.leb_spec 0 p), (Z.ltb_spec p len); try lia. reflexivity.
Qed.

Lemma reflect_101_step fuel p len :
  ~ 0 <= p < len ->
  Cv2.reflect_101 (S fuel) p len
  = Cv2.reflect_101 fuel (if p <? 0 then - p else 2 * len - 2 - p) len.
Proof.
  intros H. cbn [Cv2.reflect_101].
  destruct (Z.leb_spec 0 p), (Z.ltb_spec p len); try lia; reflexivity.
Qed.

Lemma borderInterpolate_outside p len :
  ~ 0 <= p < len -> len <> 1 ->
  Cv2.borderInterpolate p len
  = Cv2.reflect_101 (Z.to_nat (2 * Z.abs p + 2)) p len.
Proof.
  intros H Hl. unfold Cv2.borderInterpolate.
  destruct (Z.leb_spec 0 p), (Z.ltb_spec p len); try lia; cbn [andb];
    destruct (Z.eqb_spec len 1); try lia; reflexivity.
Qed.

(** One pixel before the first element is the second element. *)
Lemma borderInterpolate_before len :
  2 <= len -> Cv2.borderInterpolate (-1) len = 1.
Proof.
  intros H. rewrite borderInterpolate_outside by lia.
  change (Z.to_nat (2 * Z.abs (-1) + 2)) with 4%nat.
  rewrite reflect_101_step by lia.
  change (if -1 <? 0 then - -1 else 2 * len - 2 - -1) with 1.
  apply reflect_101_inside. lia.
Qed.

(** One pixel after the last element is the element before the last. *)
Lemma borderInterpolate_after len :
  2 <= len -> Cv2.borderInterpolate len len = len - 2.
Proof.
  intros H. rewrite borderInterpolate_outside by lia.
  destruct (Z.to_nat (2 * Z.abs len + 2)) eqn:E; [lia |].
  rewrite reflect_101_step by lia.
  destruct (Z.ltb_spec len 0); [lia |].
  rewrite reflect_101_inside by lia. lia.
Qed.

(** An axis of one element is replicated. *)
Lemma borderInterpolate_single p : Cv2.borderInterpolate p 1 = 0.
Proof.
  unfold Cv2.borderInterpolate.
  destruct (Z.leb_spec 0 p), (Z.ltb_spec p 1); cbn [andb]; try reflexivity.
  lia.
Qed.

(** The reflection reads inside the axis, whatever the distance. *)
Lemma reflect_101_range fuel p len :
  2 <= len ->
  (if p <? 0 then 2 * - p
   else if len <=? p then 2 * (p - len) + 1 else 0) <= Z.of_nat fuel ->
  0 <= Cv2.reflect_101 fuel p len < len.
Proof.
  intros Hlen. revert p. induction fuel as [| fuel IH]; intros p Hm.
  - assert (0 <= p < len).
    { destruct (Z.ltb_spec p 0), (Z.leb_spec len p); lia. }
    rewrite reflect_101_inside; assumption.
  - destruct (Z.ltb_spec p 0) as [Hneg | Hnn].
    + rewrite reflect_101_step by lia.
      destruct (Z.ltb_spec p 0); [| lia].
      apply IH.
      destruct (Z.ltb_spec (- p) 0), (Z.leb_spec len (- p)); lia.
    + destruct (Z.leb_spec len p) as [Hout | Hin].
      * rewrite reflect_101_step by lia.
        destruct (Z.ltb_spec p 0); [lia |].
        apply IH.
        destruct (Z.ltb_spec (2 * len - 2 - p) 0),
          (Z.leb_spec len (2 * len - 2 - p)); lia.
      * rewrite reflect_101_inside; lia.
Qed.

Lemma borderInterpolate_range p len :
  1 <= len -> 0 <= Cv2.borderInterpolate p len < len.
Proof.
  intros Hlen.
  destruct (Z.eq_dec len 1) as [-> | Hne].
  - rewrite borderInterpolate_single. lia.
  - assert (Hin : 0 <= p < len \/ ~ 0 <= p < len) by lia.
    destruct Hin as [Hin | Hout].
    + rewrite borderInterpolate_inside; assumption.
    + rewrite borderInterpolate_outside by assumption.
      apply reflect_101_range; [lia |].
      destruct (Z.ltb_spec p 0), (Z.leb_spec len p); lia.
Qed.

Lemma copyMakeBorder_ok src top bottom left right :
  0 <= top -> 0 <= bottom -> 0 <= left -> 0 <= right ->
  Cv2.copyMakeBorder src top bottom left right =
  Ok {| width := width src + left + right;
        height := height src + top + bottom;
        getpixel := fun i j =>
          getpixel src (Cv2.borderInterpolate (i - left) (width src))
                       (Cv2.borderInterpolate (j - top) (height src)) |}.
Proof.
  intros. unfold Cv2.copyMakeBorder.
  destruct (Z.ltb_spec top 0), (Z.ltb_spec bottom 0),
    (Z.ltb_spec left 0), (Z.ltb_spec right 0); try lia. reflexivity.
Qed.

Lemma half_split (p : Z) :
  0 <= p -> 0 <= p / 2 /\ p / 2 <= p - p / 2 <= p / 2 + 1.
Proof.
  intros H. pose proof (Z.mul_div_le p 2 ltac:(lia)).
  pose proof (Z.mul_succ_div_gt p 2 ltac:(lia)). lia.
Qed.

(** C3, as the code has it. For a source of size at most the target,
    [resize_smart_fill] pads the scaled content by [top = pad_h//2],
    [bottom = pad_h - top], [left = pad_w//2], [right = pad_w - left], where
    [pad_w = target_w - scaled_w] and [pad_h = target_h - scaled_h]; the
    content is kept, and on an axis where the content has at least two
    pixels the pixel immediately outside it equals the second pixel inward
    from that edge.  On an axis where the content has a single pixel there
    is no second pixel and the border repeats that pixel. *)
Theorem smart_fill_pads_and_reflects im tw th r :
  0 < width im <= tw -> tw <= 2 ^ 51 ->
  0 < height im <= th -> th <= 2 ^ 51 ->
  exists s nw nh content out,
    fit_scale (width im) (height im) tw th = Ok s /\
    scaled_size (width im) (height im) s = (nw, nh) /\
    PIL.resize kernel im nw nh r = Ok content /\
    size content = (nw, nh) /\
    let pad_w := tw - nw in
    let pad_h := th - nh in
    let top := pad_h / 2 in
    let bottom := pad_h - top in
    let left := pad_w / 2 in
    let right := pad_w - left in
    resize_smart_fill kernel im tw th r = Ok out /\
    Cv2.copyMakeBorder content top bottom left right = Ok out /\
    size out = (tw, th) /\
    (forall x y, 0 <= x < nw -> 0 <= y < nh ->
       getpixel out (left + x) (top + y) = getpixel content x y) /\
    (2 <= nw -> forall y, 0 <= y < nh ->
       getpixel out (left - 1) (top + y) = getpixel content 1 y /\
       getpixel out (left + nw) (top + y) = getpixel content (nw - 2) y) /\
    (2 <= nh -> forall x, 0 <= x < nw ->
       getpixel out (left + x) (top - 1) = getpixel content x 1 /\
       getpixel out (left + x) (top + nh) = getpixel content x (nh - 2)) /\
    (nw = 1 -> forall x y, 0 <= y < nh ->
       getpixel out x (top + y) = getpixel content 0 y) /\
    (nh = 1 -> forall x y, 0 <= x < nw ->
       getpixel out (left + x) y = getpixel content x 0).
Proof.
  intros Hw Htw Hh Hth.
  destruct (fit_content im tw th r Hw Htw Hh Hth)
    as (s & nw & nh & content & Es & Esz & Bw & Bh & Er & Ew & Eh).
  destruct (half_split (tw - nw) ltac:(lia)) as [Hl Hr].
  destruct (half_split (th - nh) ltac:(lia)) as [Ht Hb].
  exists s, nw, nh, content. eexists.
  split; [exact Es |]. split; [exact Esz |]. split; [exact Er |].
  split; [unfold size; congruence |]. cbv zeta.
  rewrite resize_smart_fill_unfold, Es. cbn [bind]. rewrite Esz, Er.
  cbn [bind]. rewrite copyMakeBorder_ok by lia.
  split; [reflexivity |]. split; [reflexivity |].
  cbn [getpixel size width height]. rewrite Ew, Eh.
  split; [unfold size; cbn [width height]; f_equal; lia |].
  split; [| split; [| split; [| split]]].
  - intros x y Hx Hy.
    replace ((tw - nw) / 2 + x - (tw - nw) / 2) with x by lia.
    replace ((th - nh) / 2 + y - (th - nh) / 2) with y by lia.
    rewrite !borderInterpolate_inside by lia. reflexivity.
  - intros H2 y Hy.
    replace ((tw - nw) / 2 - 1 - (tw - nw) / 2) with (-1) by lia.
    replace ((tw - nw) / 2 + nw - (tw - nw) / 2) with nw by lia.
    replace ((th - nh) / 2 + y - (th - nh) / 2) with y by lia.
    rewrite borderInterpolate_before, borderInterpolate_after by lia.
    rewrite borderInterpolate_inside by lia. split; reflexivity.
  - intros H2 x Hx.
    replace ((th - nh) / 2 - 1 - (th - nh) / 2) with (-1) by lia.
    replace ((th - nh) / 2 + nh - (th - nh) / 2) with nh by lia.
    replace ((tw - nw) / 2 + x - (tw - nw) / 2) with x by lia.
    rewrite borderInterpolate_before, borderInterpolate_after by lia.
    rewrite borderInterpolate_inside by lia. split; reflexivity.
  - intros -> x y Hy.
    replace ((th - nh) / 2 + y - (th - nh) / 2) with y by lia.
    rewrite borderInterpolate_single, borderInterpolate_inside by lia.
    reflexivity.
  - intros -> x y Hx.
    replace ((tw - nw) / 2 + x - (tw - nw) / 2) with x by lia.
    rewrite borderInterpolate_single, borderInterpolate_inside by lia.
    reflexivity.
Qed.

(** C6. For a source of size at most the target, [resize_letterbox] and
    [resize_smart_fill] compute the same scaled size and embed the same
    scaled image at the same offset: the letterboxed image is that content
    pasted on the black canvas, the filled image is that content with a
    reflected border, both have the target size, and they agree with the
    content, hence with each other, on its window. *)
Theorem letterbox_smart_fill_same_content im tw th r :
  0 < width im <= tw -> tw <= 2 ^ 51 ->
  0 < height im <= th -> th <= 2 ^ 51 ->
  exists s nw nh content canvas letterboxed filled,
    fit_scale (width im) (height im) tw th = Ok s /\
    scaled_size (width im) (height im) s = (nw, nh) /\
    PIL.resize kernel im nw nh r = Ok content /\
    size content = (nw, nh) /\
    resize_letterbox kernel im tw th r = Ok letterboxed /\
    resize_smart_fill kernel im tw th r = Ok filled /\
    PIL.new tw th black = Ok canvas /\
    letterboxed = PIL.paste canvas content ((tw - nw) / 2) ((th - nh) / 2) /\
    Cv2.copyMakeBorder content
      ((th - nh) / 2) (th - nh - (th - nh) / 2)
      ((tw - nw) / 2) (tw - nw - (tw - nw) / 2) = Ok filled /\
    size letterboxed = (tw, th) /\ size filled = (tw, th) /\
    forall x y, 0 <= x < nw -> 0 <= y < nh ->
      getpixel letterboxed ((tw - nw) / 2 + x) ((th - nh) / 2 + y)
      = getpixel content x y /\
      getpixel filled ((tw - nw) / 2 + x) ((th - nh) / 2 + y)
      = getpixel content x y.
Proof.
  intros Hw Htw Hh Hth.
  destruct (fit_content im tw th r Hw Htw Hh Hth)
    as (s & nw & nh & content & Es & Esz & Bw & Bh & Er & Ew & Eh).
  destruct (half_split (tw - nw) ltac:(lia)) as [Hl Hr].
  destruct (half_split (th - nh) ltac:(lia)) as [Ht Hb].
  assert (Enew : (tw <? 0) || (th <? 0) = false).
  { apply orb_false_iff. split; apply Z.ltb_ge; lia. }
  exists s, nw, nh, content.
  rewrite resize_letterbox_unfold, resize_smart_fill_unfold, Es.
  cbn [bind]. rewrite Esz, Er. cbn [bind].
  unfold PIL.new. rewrite Enew. cbn [bind].
  rewrite copyMakeBorder_ok by lia.
  do 3 eexists.
  split; [reflexivity |]. split; [reflexivity |]. split; [reflexivity |].
  split; [unfold size; congruence |].
  do 5 (split; [reflexivity |]).
  split; [reflexivity |].
  split; [unfold size; cbn [width height]; f_equal; lia |].
  intros x y Hx Hy. cbn [PIL.paste getpixel]. unfold inside.
  rewrite Ew, Eh.
  replace ((tw - nw) / 2 + x - (tw - nw) / 2) with x by lia.
  replace ((th - nh) / 2 + y - (th - nh) / 2) with y by lia.
  rewrite !borderInterpolate_inside by lia.
  destruct (Z.leb_spec 0 x), (Z.ltb_spec x nw),
    (Z.leb_spec 0 y), (Z.ltb_spec y nh); try lia.
  split; reflexivity.
Qed.

(** *** Center crop *)

(** When the target is at least the source, the scale covering it is
    computed, the scaled size is at least the source, and the resize to it
    succeeds. *)
Lemma cover_content im tw th r :
  0 < width im <= tw -> tw < 2 ^ 26 ->
  0 < height im <= th -> th < 2 ^ 26 ->
  exists s nw nh resized,
    cover_scale (width im) (height im) tw th = Ok s /\
    scaled_size (width im) (height im) s = (nw, nh) /\
    width im <= nw /\ height im <= nh /\
    PIL.resize kernel im nw nh r = Ok resized /\
    width resized = nw /\ height resized = nh.
Proof.
  intros Hw Htw Hh Hth.
  destruct (truediv_ge_1 tw (width im)) as (sw & Esw & Hsw1 & Hsw & _);
    [lia | lia |].
  destruct (truediv_ge_1 th (height im)) as (sh & Esh & Hsh1 & Hsh & _);
    [lia | lia |].
  pose proof (inject_Z_pos (width im) ltac:(lia)) as HW.
  pose proof (inject_Z_pos (height im) ltac:(lia)) as HH.
  assert (B26 : forall a, a < 2 ^ 26 -> (inject_Z a <= pow2 26)%Q).
  { intros a Ha. rewrite (pow2_Z 26) by lia. rewrite <- Zle_Qle. lia. }
  pose proof (B26 tw Htw) as Htw'. pose proof (B26 th Hth) as Hth'.
  pose proof (B26 (width im) ltac:(lia)) as Hw'.
  pose proof (B26 (height im) ltac:(lia)) as Hh'.
  assert (E53 : (pow2 53 == 2 * (pow2 26 * pow2 26))%Q).
  { change 53 with (1 + (26 + 26)). rewrite !pow2_add. reflexivity. }
  pose proof (pow2_pos 26) as P26.
  set (s := fmax sw sh).
  assert (Hs : (1 <= s)%Q /\ (s <= pow2 26)%Q).
  { unfold s. destruct (fmax_cases sw sh) as [[-> H] | [-> H]];
      split; lra. }
  destruct Hs as (Hs1 & Hs2).
  destruct (scaled_dim_ge (width im) s) as [Bw _]; [lia | assumption | nra |].
  destruct (scaled_dim_ge (height im) s) as [Bh _]; [lia | assumption | nra |].
  destruct (resize_ok im (trunc (Py.mul_int_float (width im) s))
              (trunc (Py.mul_int_float (height im) s)) r)
    as (resized & Er & Ew & Eh); [lia | lia |].
  exists s, (trunc (Py.mul_int_float (width im) s)),
    (trunc (Py.mul_int_float (height im) s)), resized.
  unfold cover_scale. rewrite Esw, Esh. cbn [bind]. fold s.
  repeat split; try assumption; try lia.
Qed.

(** The output of [resize_crop] has the target size. *)
Lemma crop_size im tw th r :
  0 < width im <= tw -> tw < 2 ^ 26 ->
  0 < height im <= th -> th < 2 ^ 26 ->
  exists out, resize_crop kernel im tw th r = Ok out /\ size out = (tw, th).
Proof.
  intros Hw Htw Hh Hth.
  destruct (cover_content im tw th r Hw Htw Hh Hth)
    as (s & nw & nh & resized & Es & Esz & Bw & Bh & Er & Ew & Eh).
  rewrite resize_crop_unfold, Es. cbn [bind]. rewrite Esz, Er. cbn [bind].
  unfold PIL.crop.
  destruct (Z.ltb_spec ((nw - tw) / 2 + tw) ((nw - tw) / 2)),
    (Z.ltb_spec ((nh - th) / 2 + th) ((nh - th) / 2)); try lia.
  eexists. split; [reflexivity |].
  unfold size. cbn [width height]. f_equal; lia.
Qed.

(** *** An image already at the target size *)

Lemma truediv_self (a : Z) :
  0 < a < 2 ^ 53 ->
  exists q, Py.truediv a a = Ok q /\ (q == 1)%Q.
Proof.
  intros Ha. eexists. split; [apply truediv_ok; lia |].
  pose proof (inject_Z_pos a ltac:(lia)) as HA.
  assert (Hx : (inject_Z a / inject_Z a == 1)%Q) by (field; lra).
  pose proof (pow2_pos 53) as P53.
  assert (P1 : (1 < pow2 53)%Q).
  { change 1%Q with (pow2 0). apply pow2_lt. lia. }
  apply Qle_antisym.
  - change 1%Q with (inject_Z 1).
    apply round_le_int; cbn [prec emin binary64]; try lia; rewrite Hx;
      try lra. apply Qle_refl.
  - change 1%Q with (inject_Z 1).
    apply round_ge_int; cbn [prec emin binary64]; try lia; rewrite Hx;
      try lra. apply Qle_refl.
Qed.

Lemma scaled_dim_unit (a : Z) (s : Q) :
  0 < a < 2 ^ 53 -> (s == 1)%Q -> trunc (Py.mul_int_float a s) = a.
Proof.
  intros Ha Hs.
  pose proof (inject_Z_pos a ltac:(lia)) as HA.
  pose proof (of_int_exact a Ha) as Hoi.
  assert (HA53 : (inject_Z a < pow2 53)%Q).
  { rewrite pow2_53, <- Zlt_Qlt. lia. }
  assert (Hx : (Py.of_int a * s == inject_Z a)%Q).
  { rewrite Hoi, Hs. ring. }
  assert (Hlo : (inject_Z a <= Py.mul_int_float a s)%Q).
  { unfold Py.mul_int_float.
    apply round_ge_int; cbn [prec emin binary64]; try lia; rewrite Hx;
      try lra. }
  assert (Hhi : (Py.mul_int_float a s <= inject_Z a)%Q).
  { unfold Py.mul_int_float.
    apply round_le_int; cbn [prec emin binary64]; try lia; rewrite Hx;
      try lra. }
  enough (a <= trunc (Py.mul_int_float a s) <= a) by lia.
  apply trunc_between; try lia; lra.
Qed.

Lemma unit_scale (w h : Z) :
  0 < w < 2 ^ 53 -> 0 < h < 2 ^ 53 ->
  (exists s, fit_scale w h w h = Ok s /\ scaled_size w h s = (w, h)) /\
  (exists s, cover_scale w h w h = Ok s /\ scaled_size w h s = (w, h)).
Proof.
  intros Hw Hh.
  destruct (truediv_self w Hw) as (sw & Esw & Hsw).
  destruct (truediv_self h Hh) as (sh & Esh & Hsh).
  unfold fit_scale, cover_scale. rewrite Esw, Esh. cbn [bind].
  split; eexists; (split; [reflexivity |]); unfold scaled_size; f_equal;
    apply scaled_dim_unit; try assumption.
  all: try (destruct (fmin_cases sw sh) as [[-> _] | [-> _]]; assumption).
  all: destruct (fmax_cases sw sh) as [[-> _] | [-> _]]; assumption.
Qed.

(** C7. On an image whose size is already the target size, each of the four
    strategies returns the image unchanged: [resize_fill] returns the image
    itself, and the other three return an image of the same size with the
    same pixels. *)
Theorem strategies_identity_at_target im tw th r :
  size im = (tw, th) -> 0 < tw < 2 ^ 53 -> 0 < th < 2 ^ 53 ->
  resize_fill kernel im tw th r = Ok im /\
  (exists out, resize_letterbox kernel im tw th r = Ok out /\
               same_image out im) /\
  (exists out, resize_crop kernel im tw th r = Ok out /\
               same_image out im) /\
  (exists out, resize_smart_fill kernel im tw th r = Ok out /\
               same_image out im).
Proof.
  intros Hsz Htw Hth. unfold size in Hsz.
  injection Hsz as Ew Eh.
  destruct (unit_scale tw th Htw Hth)
    as [(s1 & Es1 & Esz1) (s2 & Es2 & Esz2)].
  pose proof (resize_same_size im r) as Er. rewrite Ew, Eh in Er.
  assert (Zero : forall a, (a - a) / 2 = 0).
  { intros a. rewrite Z.sub_diag. reflexivity. }
  split; [exact Er |]. split; [| split].
  - rewrite resize_letterbox_unfold, Ew, Eh, Es1. cbn [bind].
    rewrite Esz1, Er. cbn [bind]. unfold PIL.new.
    destruct (Z.ltb_spec tw 0), (Z.ltb_spec th 0); try lia.
    cbn [orb bind]. eexists. split; [reflexivity |].
    split; [unfold size; cbn [PIL.paste width height]; congruence |].
    intros x y Hx Hy. cbn [PIL.paste width height getpixel] in *.
    rewrite !Zero, !Z.sub_0_r. unfold inside. rewrite Ew, Eh.
    destruct (Z.leb_spec 0 x), (Z.ltb_spec x tw),
      (Z.leb_spec 0 y), (Z.ltb_spec y th); try lia. reflexivity.
  - rewrite resize_crop_unfold, Ew, Eh, Es2. cbn [bind].
    rewrite Esz2, Er. cbn [bind]. unfold PIL.crop. rewrite !Zero.
    destruct (Z.ltb_spec (0 + tw) 0), (Z.ltb_spec (0 + th) 0); try lia.
    cbn [orb]. eexists. split; [reflexivity |].
    split; [unfold size; cbn [width height]; f_equal; lia |].
    intros x y Hx Hy. cbn [width height getpixel] in *.
    rewrite !Z.add_0_r. unfold inside. rewrite Ew, Eh.
    destruct (Z.leb_spec 0 x), (Z.ltb_spec x tw),
      (Z.leb_spec 0 y), (Z.ltb_spec y th); try lia. reflexivity.
  - rewrite resize_smart_fill_unfold, Ew, Eh, Es1. cbn [bind].
    rewrite Esz1, Er. cbn [bind]. rewrite !Zero, !Z.sub_diag.
    rewrite copyMakeBorder_ok by lia. eexists. split; [reflexivity |].
    split; [unfold size; cbn [width height]; f_equal; lia |].
    intros x y Hx Hy. cbn [width height getpixel] in *.
    rewrite !Z.sub_0_r, !borderInterpolate_inside by lia. reflexivity.
Qed.

Lemma cover_scale_333x512 :
  exists s,
    cover_scale 333 512 336 512 = Ok s /\
    scaled_size 333 512 s = (335, 516).
Proof. eexists. split; [reflexivity | vm_compute; reflexivity]. Qed.

(** C5 at a failing input. A 333 x 512 image with multiple 16 has the
    target 336 x 512; [resize_crop] scales it by [max(336/333, 512/512)]
    and the truncated product [int(333 * (336/333))] is 335, one less than
    the target width: the crop window starts at column -1, outside the
    scaled image, and the first column of the output is the black padding
    of [crop], whatever the image and the filter. *)
Theorem crop_window_leaves_scaled_image (px : Z -> Z -> pixel) r :
  let im := {| width := 333; height := 512; getpixel := px |} in
  calculate_target_dimensions 333 512 16 = Ok (336, 512) /\
  exists s resized out,
    cover_scale 333 512 336 512 = Ok s /\
    scaled_size 333 512 s = (335, 516) /\
    PIL.resize kernel im 335 516 r = Ok resized /\
    size resized = (335, 516) /\
    resize_crop kernel im 336 512 r = Ok out /\
    size out = (336, 512) /\
    (335 - 336) / 2 = -1 /\
    forall y, getpixel out 0 y = black.
Proof.
  intros im. split; [vm_compute; reflexivity |].
  destruct cover_scale_333x512 as (s & Es & Esz).
  exists s.
  rewrite resize_crop_unfold. cbn [im width height].
  rewrite Es. cbn [bind]. rewrite Esz.
  unfold PIL.resize. cbn [im width height].
  change ((333 =? 335) && (512 =? 516)) with false.
  change ((335 <? 1) || (516 <? 1)) with false.
  cbn [bind]. unfold PIL.crop.
  change ((335 - 336) / 2) with (-1). change ((516 - 512) / 2) with 2.
  change ((-1 + 336 <? -1) || (2 + 512 <? 2)) with false.
  do 2 eexists.
  split; [reflexivity |]. split; [reflexivity |]. split; [reflexivity |].
  split; [reflexivity |]. split; [reflexivity |]. split; [reflexivity |].
  split; [reflexivity |].
  intros y. reflexivity.
Qed.

(** *** Every strategy produces the target size *)

Lemma letterbox_size im tw th r :
  0 < width im <= tw -> tw <= 2 ^ 51 ->
  0 < height im <= th -> th <= 2 ^ 51 ->
  exists out,
    resize_letterbox kernel im tw th r = Ok out /\ size out = (tw, th).
Proof.
  intros Hw Htw Hh Hth.
  destruct (fit_content im tw th r Hw Htw Hh Hth)
    as (s & nw & nh & resized & Es & Esz & _ & _ & Er & _ & _).
  rewrite resize_letterbox_unfold, Es. cbn [bind]. rewrite Esz, Er.
  cbn [bind]. unfold PIL.new.
  destruct (Z.ltb_spec tw 0), (Z.ltb_spec th 0); try lia.
  cbn [orb bind]. eexists. split; reflexivity.
Qed.

Lemma smart_fill_size im tw th r :
  0 < width im <= tw -> tw <= 2 ^ 51 ->
  0 < height im <= th -> th <= 2 ^ 51 ->
  exists out,
    resize_smart_fill kernel im tw th r = Ok out /\ size out = (tw, th).
Proof.
  intros Hw Htw Hh Hth.
  destruct (fit_content im tw th r Hw Htw Hh Hth)
    as (s & nw & nh & resized & Es & Esz & Bw & Bh & Er & Ew & Eh).
  destruct (half_split (tw - nw) ltac:(lia)) as [Hl Hr].
  destruct (half_split (th - nh) ltac:(lia)) as [Ht Hb].
  rewrite resize_smart_fill_unfold, Es. cbn [bind]. rewrite Esz, Er.
  cbn [bind]. rewrite copyMakeBorder_ok by lia.
  eexists. split; [reflexivity |].
  unfold size. cbn [width height]. rewrite Ew, Eh. f_equal; lia.
Qed.

Lemma fill_size im tw th r :
  1 <= tw -> 1 <= th ->
  exists out, resize_fill kernel im tw th r = Ok out /\ size out = (tw, th).
Proof.
  intros Htw Hth. unfold resize_fill.
  destruct (resize_ok im tw th r Htw Hth) as (out & Er & Ew & Eh).
  exists out. split; [exact Er |]. unfold size. congruence.
Qed.

End StrategyFacts.

(** ** The node *)

Section NodeFacts.

Variable kernel : PIL.Resampling -> image -> Z -> Z -> Z -> Z -> pixel.

(** The target of a frame: both dimensions rounded up to the multiple. *)
Lemma target_dimensions (w h m : Z) :
  0 < w < 2 ^ 53 -> 0 < h < 2 ^ 53 -> 0 < m <= 2 ^ 53 ->
  exists tw th,
    calculate_target_dimensions w h m = Ok (tw, th) /\
    w <= tw < w + m /\ h <= th < h + m.
Proof.
  intros Hw Hh Hm. unfold calculate_target_dimensions.
  rewrite !round_to_multiple_eq by assumption. cbn [bind].
  do 2 eexists. split; [reflexivity |].
  destruct (ceil_multiple_spec w m ltac:(lia)) as (_ & ? & ? & _).
  destruct (ceil_multiple_spec h m ltac:(lia)) as (_ & ? & ? & _).
  lia.
Qed.

Lemma fit_modes_cases fit :
  In fit fit_modes ->
  fit = "smart_fill"%string \/ fit = "letterbox"%string \/
  fit = "crop"%string \/ fit = "fill"%string.
Proof.
  unfold fit_modes. simpl. intros [H | [H | [H | [H | []]]]]; auto.
Qed.

(** One iteration of the loop on a frame of a valid batch. *)
Lemma resize_one_ok (f : frame) (fit method : string) (m : Z) :
  0 < rows f <= 2 ^ 25 -> 0 < cols f <= 2 ^ 25 ->
  In fit fit_modes -> In m round_multiples ->
  exists tw th im,
    calculate_target_dimensions (cols f) (rows f) m = Ok (tw, th) /\
    resize_one kernel f fit method m = Ok (Np.to_tensor im, (tw, th)) /\
    size im = (tw, th).
Proof.
  intros Hr Hc Hfit Hm. apply round_multiples_bounds in Hm.
  destruct (target_dimensions (cols f) (rows f) m)
    as (tw & th & Et & Btw & Bth); try lia.
  exists tw, th. unfold resize_one.
  change (size (Np.to_pil f)) with (cols f, rows f). cbv iota beta.
  rewrite Et. cbn [bind].
  assert (Hw : 0 < width (Np.to_pil f) <= tw) by (cbn; lia).
  assert (Hh : 0 < height (Np.to_pil f) <= th) by (cbn; lia).
  assert (B51 : tw <= 2 ^ 51 /\ th <= 2 ^ 51) by lia.
  assert (B26 : tw < 2 ^ 26 /\ th < 2 ^ 26) by lia.
  destruct (fit_modes_cases fit Hfit) as [-> | [-> | [-> | ->]]].
  - destruct (smart_fill_size kernel (Np.to_pil f) tw th
                (get_resampling_method method)) as (im & E & Esz); try lia.
    exists im. split; [reflexivity |]. split; [| exact Esz].
    change (String.eqb "smart_fill" "letterbox") with false.
    change (String.eqb "smart_fill" "crop") with false.
    change (String.eqb "smart_fill" "fill") with false.
    change (String.eqb "smart_fill" "smart_fill") with true.
    cbv iota. rewrite E. reflexivity.
  - destruct (letterbox_size kernel (Np.to_pil f) tw th
                (get_resampling_method method)) as (im & E & Esz); try lia.
    exists im. split; [reflexivity |]. split; [| exact Esz].
    change (String.eqb "letterbox" "letterbox") with true.
    cbv iota. rewrite E. reflexivity.
  - destruct (crop_size kernel (Np.to_pil f) tw th
                (get_resampling_method method)) as (im & E & Esz); try lia.
    exists im. split; [reflexivity |]. split; [| exact Esz].
    change (String.eqb "crop" "letterbox") with false.
    change (String.eqb "crop" "crop") with true.
    cbv iota. rewrite E. reflexivity.
  - destruct (fill_size kernel (Np.to_pil f) tw th
                (get_resampling_method method)) as (im & E & Esz); try lia.
    exists im. split; [reflexivity |]. split; [| exact Esz].
    change (String.eqb "fill" "letterbox") with false.
    change (String.eqb "fill" "crop") with false.
    change (String.eqb "fill" "fill") with true.
    cbv iota. rewrite E. reflexivity.
Qed.

(** *** The loop over the batch *)

Lemma last_cons {A : Type} (l : list A) :
  forall a d : A, last (a :: l) d = last l a.
Proof.
  induction l as [| b l IH]; intros a d; [reflexivity |].
  change (last (a :: b :: l) d) with (last (b :: l) d).
  rewrite (IH b d), (IH b a). reflexivity.
Qed.

(** When every iteration succeeds, the loop appends the images in order and
    keeps the target of the last iteration. *)
Lemma resize_loop_ok fit method m image outs :
  Forall2 (fun f o => resize_one kernel f fit method m = Ok o) image outs ->
  forall results target,
    resize_loop kernel image fit method m results target
    = Ok (results ++ map fst outs, last (targets outs) target).
Proof.
  induction 1 as [| f o image outs Ho _ IH]; intros results target.
  - cbn. rewrite app_nil_r. reflexivity.
  - cbn [resize_loop]. rewrite Ho. cbn [bind]. destruct o as [g tgt].
    rewrite IH. cbn [map fst snd targets].
    rewrite <- app_assoc. cbn [app].
    fold (targets outs). rewrite last_cons. reflexivity.
Qed.

(** Conversely, a loop that ends has succeeded at every iteration. *)
Lemma resize_loop_inv fit method m image :
  forall results target res tgt,
    resize_loop kernel image fit method m results target = Ok (res, tgt) ->
    exists outs,
      Forall2 (fun f o => resize_one kernel f fit method m = Ok o)
        image outs /\
      res = results ++ map fst outs /\
      tgt = last (targets outs) target.
Proof.
  induction image as [| f image IH]; intros results target res tgt H.
  - cbn in H. injection H as <- <-. exists []. cbn.
    rewrite app_nil_r. auto.
  - cbn [resize_loop] in H.
    destruct (resize_one kernel f fit method m) as [[g t] | e] eqn:Ho;
      [| discriminate].
    cbn [bind] in H. apply IH in H. destruct H as (outs & Hall & -> & ->).
    exists ((g, t) :: outs). split; [constructor; assumption |].
    cbn [map fst snd targets]. rewrite <- app_assoc. split; [reflexivity |].
    fold (targets outs). rewrite last_cons. reflexivity.
Qed.

Lemma resize_one_inv f fit method m g tgt :
  resize_one kernel f fit method m = Ok (g, tgt) ->
  calculate_target_dimensions (cols f) (rows f) m = Ok tgt /\
  exists im, g = Np.to_tensor im.
Proof.
  unfold resize_one.
  change (size (Np.to_pil f)) with (cols f, rows f). cbv iota beta.
  destruct (calculate_target_dimensions (cols f) (rows f) m)
    as [[tw th] | e]; [| discriminate].
  cbn [bind].
  match goal with
  | |- bind ?c _ = _ -> _ => destruct c as [im | e]; [| discriminate]
  end.
  cbn [bind]. intros H. injection H as <- <-. split; [reflexivity |].
  exists im. reflexivity.
Qed.

(** What [resize_image] returns, whenever it returns: one image per frame,
    in order, and the target of the last frame. *)
Lemma resize_image_inv image fit method m output w h :
  resize_image kernel image fit method m = Ok (output, w, h) ->
  exists outs front f o,
    Forall2 (fun f o => resize_one kernel f fit method m = Ok o) image outs /\
    output = map fst outs /\
    image = front ++ [f] /\
    resize_one kernel f fit method m = Ok o /\
    snd o = (w, h).
Proof.
  unfold resize_image.
  destruct (resize_loop kernel image fit method m [] None)
    as [[results target] | e] eqn:Hloop; [| discriminate].
  cbn [bind]. apply resize_loop_inv in Hloop.
  destruct Hloop as (outs & Hall & -> & ->). cbn [app].
  destruct (Np.stack (map fst outs)) as [t | e] eqn:Hst; [| discriminate].
  cbn [bind].
  assert (Et : t = map fst outs).
  { unfold Np.stack in Hst. destruct (map fst outs); [discriminate |].
    destruct (forallb _ _); [| discriminate]. congruence. }
  destruct (last (targets outs) None) as [[fw fh] |] eqn:Hlast;
    [| discriminate].
  intros H. injection H as <- <- <-.
  destruct outs as [| o0 outs0] using rev_ind; [discriminate |].
  unfold targets in Hlast. rewrite map_app in Hlast. cbn [map] in Hlast.
  rewrite last_last in Hlast.
  injection Hlast as Hlast.
  apply Forall2_app_inv_r in Hall.
  destruct Hall as (front & l2 & Hfront & Hl2 & ->).
  inversion Hl2 as [| f o' l2' l0' Ho Hnil]; subst.
  inversion Hnil; subst.
  exists (outs0 ++ [o0]), front, f, o0.
  repeat split; try assumption.
  apply Forall2_app; [assumption | constructor; auto].
Qed.

(** On a non-empty uniform batch of valid frames every iteration succeeds
    with the same target, and [resize_image] returns the images in order
    with that target. *)
Lemma resize_image_ok image fit method m :
  image <> [] -> uniform image -> Forall valid_frame image ->
  In fit fit_modes -> In m round_multiples ->
  exists outs w h,
    resize_image kernel image fit method m = Ok (map fst outs, w, h) /\
    Forall2 (fun f o => resize_one kernel f fit method m = Ok o /\
                        snd o = (w, h) /\ shape (fst o) = (h, w))
      image outs.
Proof.
  intros Hne (sh & sw & Hun) Hvalid Hfit Hm.
  assert (Hone : forall f, In f image ->
            0 < sh <= 2 ^ 25 /\ 0 < sw <= 2 ^ 25).
  { intros f Hin. rewrite Forall_forall in Hun, Hvalid.
    specialize (Hun f Hin). specialize (Hvalid f Hin).
    unfold shape in Hun. injection Hun as <- <-. exact Hvalid. }
  destruct image as [| f0 rest]; [contradiction |].
  destruct (Hone f0 (or_introl eq_refl)) as [Bh Bw].
  pose proof (round_multiples_bounds m Hm) as Bm.
  destruct (target_dimensions sw sh m) as (tw & th & Et & _); try lia.
  assert (Hall : exists outs,
            Forall2 (fun f o => resize_one kernel f fit method m = Ok o /\
                                snd o = (tw, th) /\ shape (fst o) = (th, tw))
              (f0 :: rest) outs).
  { clear Hne Hone. induction (f0 :: rest) as [| f l IH].
    - exists []. constructor.
    - inversion Hun as [| ? ? Hf Hun']; subst.
      inversion Hvalid as [| ? ? Hv Hvalid']; subst.
      destruct (IH Hun' Hvalid') as (outs & Houts).
      unfold shape in Hf. injection Hf as Hr Hc.
      destruct Hv as [Hv1 Hv2].
      destruct (resize_one_ok f fit method m Hv1 Hv2 Hfit Hm)
        as (tw' & th' & im & Et' & Eone & Esz).
      rewrite Hr, Hc, Et in Et'. injection Et' as <- <-.
      exists ((Np.to_tensor im, (tw, th)) :: outs).
      constructor; [| assumption].
      split; [assumption |]. split; [reflexivity |].
      unfold size in Esz. injection Esz as Ew Eh.
      unfold shape. cbn. congruence. }
  destruct Hall as (outs & Hall). exists outs, tw, th.
  split; [| exact Hall].
  assert (Hall' : Forall2 (fun f o => resize_one kernel f fit method m = Ok o)
                    (f0 :: rest) outs).
  { eapply Forall2_impl; [| exact Hall]. intros ? ? [? _]. assumption. }
  unfold resize_image. rewrite (resize_loop_ok _ _ _ _ _ Hall').
  cbn [bind app].
  inversion Hall as [| ? o0 ? outs0 (Ho0 & Ht0 & Hs0) Hrest]; subst.
  assert (Hst : Np.stack (map fst (o0 :: outs0)) = Ok (map fst (o0 :: outs0))).
  { cbn [map Np.stack].
    replace (forallb (Np.same_shape (fst o0)) (map fst outs0)) with true;
      [reflexivity |].
    symmetry. apply forallb_forall. intros g Hg.
    apply in_map_iff in Hg. destruct Hg as (o & <- & Hin).
    assert (Hso : shape (fst o) = (th, tw)).
    { clear - Hrest Hin. induction Hrest as [| ? ? ? ? Hx ? IH];
        [contradiction |].
      destruct Hin as [<- | Hin]; [apply Hx | apply IH, Hin]. }
    unfold shape in Hs0, Hso. injection Hs0 as E1 E2.
    injection Hso as E3 E4. unfold Np.same_shape.
    rewrite E1, E2, E3, E4, !Z.eqb_refl. reflexivity. }
  rewrite Hst. cbn [bind].
  assert (Hlast : last (targets (o0 :: outs0)) None = Some (tw, th)).
  { clear - Hall. remember (o0 :: outs0) as outs eqn:E.
    assert (Hne : outs <> []) by (subst; discriminate). clear E.
    induction Hall as [| f o l outs' (_ & Ht & _) Hall IH];
      [contradiction |].
    unfold targets. cbn [map]. fold (targets outs'). rewrite last_cons.
    destruct outs' as [| o1 outs1].
    - cbn. rewrite Ht. reflexivity.
    - rewrite <- (IH ltac:(discriminate)).
      unfold targets. cbn [map]. rewrite !last_cons. reflexivity. }
  rewrite Hlast. reflexivity.
Qed.

(** *** The batch *)

Lemma Forall2_nth_error {A B : Type} (R : A -> B -> Prop) l l' :
  Forall2 R l l' ->
  forall i a, nth_error l i = Some a ->
    exists b, nth_error l' i = Some b /\ R a b.
Proof.
  induction 1 as [| x y l l' Hxy _ IH]; intros i a Hi.
  - destruct i; discriminate.
  - destruct i as [| i]; cbn in Hi |- *.
    + injection Hi as <-. exists y. auto.
    + apply IH. exact Hi.
Qed.

(** C8. On a non-empty batch of valid frames with a fit mode and a multiple
    of the allowed sets, [resize_image] returns a batch of the same length
    in the same order: the i-th output image is what one iteration of the
    loop makes of the i-th input image. *)
Theorem batch_length_and_order image fit method m :
  image <> [] -> uniform image -> Forall valid_frame image ->
  In fit fit_modes -> In m round_multiples ->
  exists output w h,
    resize_image kernel image fit method m = Ok (output, w, h) /\
    List.length output = List.length image /\
    forall i f, nth_error image i = Some f ->
      exists g,
        resize_one kernel f fit method m = Ok (g, (w, h)) /\
        nth_error output i = Some g.
Proof.
  intros Hne Hun Hvalid Hfit Hm.
  destruct (resize_image_ok image fit method m Hne Hun Hvalid Hfit Hm)
    as (outs & w & h & Eq & Hall).
  exists (map fst outs), w, h. split; [exact Eq |]. split.
  - rewrite length_map. symmetry. eapply Forall2_length. exact Hall.
  - intros i f Hi.
    destruct (Forall2_nth_error _ _ _ Hall i f Hi)
      as ([g t] & Ho & Hone & Ht & _).
    cbn [snd] in Ht. subst t. exists g. split; [exact Hone |].
    rewrite nth_error_map, Ho. reflexivity.
Qed.

(** C9. Whenever [resize_image] returns, the batch has a last frame and the
    returned width and height are the target computed, by rounding up to the
    multiple, from the dimensions of that last frame; and on a non-empty
    batch of valid frames with an allowed fit mode and multiple it does
    return. *)
Theorem returned_size_is_last_target image fit method m :
  (forall output w h,
     resize_image kernel image fit method m = Ok (output, w, h) ->
     exists front f,
       image = front ++ [f] /\
       calculate_target_dimensions (cols f) (rows f) m = Ok (w, h)) /\
  (image <> [] -> uniform image -> Forall valid_frame image ->
   In fit fit_modes -> In m round_multiples ->
   exists output w h,
     resize_image kernel image fit method m = Ok (output, w, h)).
Proof.
  split.
  - intros output w h H.
    destruct (resize_image_inv _ _ _ _ _ _ _ H)
      as (outs & front & f & [g t] & _ & _ & Himg & Hone & Ht).
    cbn [snd] in Ht. subst t. exists front, f. split; [exact Himg |].
    apply resize_one_inv in Hone. apply Hone.
  - intros Hne Hun Hvalid Hfit Hm.
    destruct (resize_image_ok image fit method m Hne Hun Hvalid Hfit Hm)
      as (outs & w & h & Eq & _).
    exists (map fst outs), w, h. exact Eq.
Qed.

(** *** Unrecognised options *)

Lemma unknown_fit fit :
  ~ In fit fit_modes ->
  String.eqb fit "letterbox" = false /\ String.eqb fit "crop" = false /\
  String.eqb fit "fill" = false /\ String.eqb fit "smart_fill" = false.
Proof.
  intros H. unfold fit_modes in H. cbn [In] in H.
  repeat split; apply String.eqb_neq; intros ->; tauto.
Qed.

Lemma unknown_method method :
  ~ In method methods -> get_resampling_method method = PIL.LANCZOS.
Proof.
  intros H. unfold methods in H. cbn [In] in H.
  unfold get_resampling_method, method_map. cbn [get].
  repeat match goal with
  | |- context [String.eqb ?k method] =>
      destruct (String.eqb_spec k method); [subst; tauto |]
  end.
  reflexivity.
Qed.

Lemma resize_one_unknown_fit f fit method m :
  ~ In fit fit_modes ->
  exists e, resize_one kernel f fit method m = Raise e.
Proof.
  intros H. destruct (unknown_fit fit H) as (E1 & E2 & E3 & E4).
  unfold resize_one.
  change (size (Np.to_pil f)) with (cols f, rows f). cbv iota beta.
  destruct (calculate_target_dimensions (cols f) (rows f) m)
    as [[tw th] | e]; cbn [bind].
  - rewrite E1, E2, E3, E4. cbn [bind]. eexists. reflexivity.
  - eexists. reflexivity.
Qed.

Lemma resize_loop_method fit method m image :
  ~ In method methods ->
  forall results target,
    resize_loop kernel image fit method m results target
    = resize_loop kernel image fit "lanczos" m results target.
Proof.
  intros H. induction image as [| f image IH]; intros results target;
    [reflexivity |].
  cbn [resize_loop].
  replace (resize_one kernel f fit method m)
    with (resize_one kernel f fit "lanczos" m).
  - destruct (resize_one kernel f fit "lanczos" m) as [[g t] | e];
      cbn [bind]; [apply IH | reflexivity].
  - unfold resize_one. rewrite (unknown_method method H). reflexivity.
Qed.

(** C2, as the code has it. A fit value outside the four modes makes
    [resize_image] fail, with no image returned: on a batch with a valid
    first frame the error is the [UnboundLocalError] of the result that no
    branch assigned.  A method outside the six filters is not an error:
    [get_resampling_method] returns LANCZOS for it, and the call does what
    it does with "lanczos". *)
Theorem unknown_fit_fails_unknown_method_is_lanczos image fit method m :
  (~ In fit fit_modes ->
   (exists e, resize_image kernel image fit method m = Raise e) /\
   (forall f rest, image = f :: rest -> valid_frame f ->
      In m round_multiples ->
      resize_image kernel image fit method m = Raise UnboundLocalError)) /\
  (~ In method methods ->
   get_resampling_method method = PIL.LANCZOS /\
   resize_image kernel image fit method m
   = resize_image kernel image fit "lanczos" m).
Proof.
  split.
  - intros Hfit. split.
    + unfold resize_image. destruct image as [| f rest].
      * cbn. eexists. reflexivity.
      * cbn [resize_loop].
        destruct (resize_one_unknown_fit f fit method m Hfit) as (e & ->).
        cbn [bind]. eexists. reflexivity.
    + intros f rest -> [Hr Hc] Hm.
      apply round_multiples_bounds in Hm.
      destruct (target_dimensions (cols f) (rows f) m)
        as (tw & th & Et & _); try lia.
      destruct (unknown_fit fit Hfit) as (E1 & E2 & E3 & E4).
      unfold resize_image. cbn [resize_loop]. unfold resize_one.
      change (size (Np.to_pil f)) with (cols f, rows f). cbv iota beta.
      rewrite Et. cbn [bind]. rewrite E1, E2, E3, E4. reflexivity.
  - intros Hm. split; [apply unknown_method, Hm |].
    unfold resize_image. rewrite (resize_loop_method fit method m image Hm).
    reflexivity.
Qed.

(** *** The 8-bit grid *)

Lemma dequantize_checked (k : uint8) : dequantize_ok k = true.
Proof. destruct k; vm_compute; reflexivity. Qed.

Lemma Z_of_uint8_range (k : uint8) : 0 <= Z_of_uint8 k <= 255.
Proof.
  unfold Z_of_uint8. pose proof (Byte.to_N_bounded k). lia.
Qed.

Lemma dequantize_quantized (k : uint8) : quantized (Np.dequantize k).
Proof.
  exists (Z_of_uint8 k). split; [apply Z_of_uint8_range |].
  split; [reflexivity |].
  pose proof (dequantize_checked k) as H. unfold dequantize_ok in H.
  cbv zeta in H. apply andb_true_iff in H. destruct H as [H H3].
  apply andb_true_iff in H. destruct H as [H1 H2].
  apply Qle_bool_iff in H1, H2, H3. auto.
Qed.

Lemma to_tensor_quantized im y x :
  let '(r, g, b) := at_ (Np.to_tensor im) y x in
  quantized r /\ quantized g /\ quantized b.
Proof.
  cbn [Np.to_tensor at_]. destruct (getpixel im x y) as [[r g] b].
  cbn [Np.map_pixel]. repeat split; apply dequantize_quantized.
Qed.

(** C10, as the code has it. On a non-empty batch of valid frames, whatever
    their pixel values, with an allowed fit mode and multiple,
    [resize_image] returns and every channel of every pixel of every output
    image is a value of the 8-bit grid: the [float32] nearest to [k/255] for
    an integer [k] of 0..255, in [0, 1] and within 2^-25 of [k/255]. *)
Theorem output_pixels_quantized image fit method m :
  image <> [] -> uniform image -> Forall valid_frame image ->
  In fit fit_modes -> In m round_multiples ->
  exists output w h,
    resize_image kernel image fit method m = Ok (output, w, h) /\
    forall g y x, In g output ->
      let '(r, g, b) := at_ g y x in
      quantized r /\ quantized g /\ quantized b.
Proof.
  intros Hne Hun Hvalid Hfit Hm.
  destruct (resize_image_ok image fit method m Hne Hun Hvalid Hfit Hm)
    as (outs & w & h & Eq & Hall).
  exists (map fst outs), w, h. split; [exact Eq |].
  intros g y x Hin. apply in_map_iff in Hin.
  destruct Hin as ([g' t] & <- & Hin). cbn [fst].
  assert (Hone : exists f, resize_one kernel f fit method m = Ok (g', t)).
  { clear - Hall Hin. induction Hall as [| f o l l' (Ho & _) _ IH];
      [contradiction |].
    destruct Hin as [-> | Hin]; [exists f; exact Ho | apply IH, Hin]. }
  destruct Hone as (f & Hone). apply resize_one_inv in Hone.
  destruct Hone as (_ & im & ->). apply to_tensor_quantized.
Qed.

End NodeFacts.

(** ** The statements on concrete inputs *)

(** C2 as stated fails: a method outside the six filters is accepted, and
    the call returns an image. *)
Lemma unknown_method_is_accepted :
  ~ In "mitchell"%string methods /\
  exists output,
    resize_image nearest_kernel [grey_frame 50 100 (1 # 2)]
      "fill" "mitchell" 16 = Ok (output, 112, 64).
Proof.
  split.
  - unfold methods. cbn [In]. intuition discriminate.
  - eexists. vm_compute. reflexivity.
Qed.

(** C4 as stated fails: a 3 x 5 image with multiple 2 has the target 4 x 6
    and the scale 1.2; the code resizes it to [(int(3.6), int(6.0)) = (3, 6)]
    where the rounded size is (4, 6), so the last column of the letterboxed
    image is black padding. *)
Lemma letterbox_scaled_size_3x5 :
  calculate_target_dimensions 3 5 2 = Ok (4, 6) /\
  exists s out,
    fit_scale 3 5 4 6 = Ok s /\
    scaled_size 3 5 s = (3, 6) /\
    spec_scaled_size 3 5 s = (4, 6) /\
    resize_letterbox nearest_kernel (gradient 3 5) 4 6 PIL.LANCZOS = Ok out /\
    (4 - 3) / 2 = 0 /\
    getpixel out 3 0 = black.
Proof.
  split; [vm_compute; reflexivity |].
  do 2 eexists.
  split; [vm_compute; reflexivity |].
  split; [vm_compute; reflexivity |].
  split; [vm_compute; reflexivity |].
  split; [vm_compute; reflexivity |].
  split; vm_compute; reflexivity.
Qed.

(** C3 as stated fails on a content one pixel wide: a 1 x 2 image with
    multiple 2 keeps its size, is padded by one column on the right, and
    that column repeats the only column, the edge itself; there is no second
    pixel inward. *)
Lemma smart_fill_single_column_replicates :
  calculate_target_dimensions 1 2 2 = Ok (2, 2) /\
  exists s content out,
    fit_scale 1 2 2 2 = Ok s /\
    scaled_size 1 2 s = (1, 2) /\
    PIL.resize nearest_kernel (gradient 1 2) 1 2 PIL.LANCZOS = Ok content /\
    width content = 1 /\
    resize_smart_fill nearest_kernel (gradient 1 2) 2 2 PIL.LANCZOS = Ok out /\
    size out = (2, 2) /\
    (2 - 1) / 2 = 0 /\
    getpixel out 1 0 = getpixel content 0 0 /\
    inside content (1 - 2) 0 = false.
Proof.
  split; [vm_compute; reflexivity |].
  do 3 eexists.
  split; [vm_compute; reflexivity |].
  split; [vm_compute; reflexivity |].
  split; [vm_compute; reflexivity |].
  split; [reflexivity |].
  split; [vm_compute; reflexivity |].
  repeat split; vm_compute; reflexivity.
Qed.

(** C10 as stated fails: a mid-grey frame comes back as the [float32]
    nearest to 127/255, which is no exact multiple of 1/255. *)
Lemma output_value_not_exact_multiple :
  exists output g,
    resize_image nearest_kernel [grey_frame 2 2 (1 # 2)] "fill" "lanczos" 2
    = Ok (output, 2, 2) /\
    nth_error output 0 = Some g /\
    fst (fst (at_ g 0 0)) = (16711423 # 33554432)%Q /\
    ~ exact_multiple_of_255th (16711423 # 33554432).
Proof.
  do 2 eexists.
  split; [vm_compute; reflexivity |].
  split; [reflexivity |].
  split; [vm_compute; reflexivity |].
  intros [k Hk]. unfold Qeq in Hk. cbn in Hk. lia.
Qed.

(** An unknown fit and an unknown method on a one-frame batch. *)
Lemma unknown_fit_fails_unknown_method_is_lanczos_witness :
  ~ In "stretch"%string fit_modes /\
  ~ In "mitchell"%string methods /\
  (exists e,
     resize_image nearest_kernel [grey_frame 50 100 (1 # 2)]
       "stretch" "mitchell" 16 = Raise e) /\
  get_resampling_method "mitchell" = PIL.LANCZOS.
Proof.
  assert (Hfit : ~ In "stretch"%string fit_modes).
  { unfold fit_modes. cbn [In]. intuition discriminate. }
  assert (Hm : ~ In "mitchell"%string methods).
  { unfold methods. cbn [In]. intuition discriminate. }
  destruct (unknown_fit_fails_unknown_method_is_lanczos nearest_kernel
              [grey_frame 50 100 (1 # 2)] "stretch" "mitchell" 16)
    as [H1 H2].
  split; [exact Hfit |]. split; [exact Hm |].
  split; [apply (H1 Hfit) | apply (H2 Hm)].
Defined.

(** Smart fill of a 100 x 50 image to its target 112 x 64. *)
Lemma smart_fill_pads_and_reflects_witness :
  (0 < width (gradient 100 50) <= 112) /\ 112 <= 2 ^ 51 /\
  (0 < height (gradient 100 50) <= 64) /\ 64 <= 2 ^ 51 /\
  exists out,
    resize_smart_fill nearest_kernel (gradient 100 50) 112 64 PIL.LANCZOS
    = Ok out /\
    size out = (112, 64).
Proof.
  assert (Hw : 0 < width (gradient 100 50) <= 112) by (cbn; lia).
  assert (Hh : 0 < height (gradient 100 50) <= 64) by (cbn; lia).
  assert (B1 : 112 <= 2 ^ 51) by lia.
  assert (B2 : 64 <= 2 ^ 51) by lia.
  repeat (split; [assumption |]).
  destruct (smart_fill_pads_and_reflects nearest_kernel (gradient 100 50)
              112 64 PIL.LANCZOS Hw B1 Hh B2)
    as (s & nw & nh & content & out & _ & _ & _ & _ & E & _ & Esz & _).
  exists out. split; assumption.
Defined.

(** Letterbox of a 100 x 50 image to its target 112 x 64. *)
Lemma letterbox_truncates_and_centers_witness :
  (0 < width (gradient 100 50) <= 112) /\ 112 <= 2 ^ 51 /\
  (0 < height (gradient 100 50) <= 64) /\ 64 <= 2 ^ 51 /\
  exists out,
    resize_letterbox nearest_kernel (gradient 100 50) 112 64 PIL.LANCZOS
    = Ok out /\
    size out = (112, 64).
Proof.
  assert (Hw : 0 < width (gradient 100 50) <= 112) by (cbn; lia).
  assert (Hh : 0 < height (gradient 100 50) <= 64) by (cbn; lia).
  assert (B1 : 112 <= 2 ^ 51) by lia.
  assert (B2 : 64 <= 2 ^ 51) by lia.
  repeat (split; [assumption |]).
  destruct (letterbox_truncates_and_centers nearest_kernel (gradient 100 50)
              112 64 PIL.LANCZOS Hw B1 Hh B2)
    as (s & nw & nh & resized & out & _ & _ & _ & _ & E & Esz & _).
  exists out. split; assumption.
Defined.

(** Letterbox and smart fill of a 100 x 50 image to its target 112 x 64. *)
Lemma letterbox_smart_fill_same_content_witness :
  (0 < width (gradient 100 50) <= 112) /\ 112 <= 2 ^ 51 /\
  (0 < height (gradient 100 50) <= 64) /\ 64 <= 2 ^ 51 /\
  exists content letterboxed filled,
    resize_letterbox nearest_kernel (gradient 100 50) 112 64 PIL.LANCZOS
    = Ok letterboxed /\
    resize_smart_fill nearest_kernel (gradient 100 50) 112 64 PIL.LANCZOS
    = Ok filled /\
    size letterboxed = size filled /\
    exists nw nh, size content = (nw, nh).
Proof.
  assert (Hw : 0 < width (gradient 100 50) <= 112) by (cbn; lia).
  assert (Hh : 0 < height (gradient 100 50) <= 64) by (cbn; lia).
  assert (B1 : 112 <= 2 ^ 51) by lia.
  assert (B2 : 64 <= 2 ^ 51) by lia.
  repeat (split; [assumption |]).
  destruct (letterbox_smart_fill_same_content nearest_kernel
              (gradient 100 50) 112 64 PIL.LANCZOS Hw B1 Hh B2)
    as (s & nw & nh & content & canvas & lb & sf & _ & _ & _ & Ec & E1 & E2
        & _ & _ & _ & Es1 & Es2 & _).
  exists content, lb, sf. repeat split; try assumption.
  - congruence.
  - exists nw, nh. exact Ec.
Defined.

(** A 112 x 64 image, already at its target for multiple 16. *)
Lemma strategies_identity_at_target_witness :
  size (gradient 112 64) = (112, 64) /\
  (0 < 112 < 2 ^ 53) /\ (0 < 64 < 2 ^ 53) /\
  resize_fill nearest_kernel (gradient 112 64) 112 64 PIL.LANCZOS
  = Ok (gradient 112 64).
Proof.
  assert (Hs : size (gradient 112 64) = (112, 64)) by reflexivity.
  assert (B1 : 0 < 112 < 2 ^ 53) by lia.
  assert (B2 : 0 < 64 < 2 ^ 53) by lia.
  repeat (split; [assumption |]).
  apply (strategies_identity_at_target nearest_kernel (gradient 112 64)
           112 64 PIL.LANCZOS Hs B1 B2).
Defined.

(** The batch [two_frames] is a valid batch. *)
Lemma two_frames_valid :
  two_frames <> [] /\ uniform two_frames /\ Forall valid_frame two_frames.
Proof.
  split; [discriminate |]. split.
  - exists 50, 100. repeat constructor.
  - repeat constructor; cbn; lia.
Qed.

(** The batch [two_frames] with smart fill and multiple 16. *)
Lemma batch_length_and_order_witness :
  two_frames <> [] /\ uniform two_frames /\ Forall valid_frame two_frames /\
  In "smart_fill"%string fit_modes /\ In 16 round_multiples /\
  exists output w h,
    resize_image nearest_kernel two_frames "smart_fill" "bicubic" 16
    = Ok (output, w, h) /\
    List.length output = List.length two_frames.
Proof.
  destruct two_frames_valid as (Hne & Hun & Hv).
  assert (Hfit : In "smart_fill"%string fit_modes) by (cbn; tauto).
  assert (Hm : In 16 round_multiples) by (cbn; tauto).
  repeat (split; [assumption |]).
  destruct (batch_length_and_order nearest_kernel two_frames "smart_fill"
              "bicubic" 16 Hne Hun Hv Hfit Hm)
    as (output & w & h & E & Hlen & _).
  exists output, w, h. split; assumption.
Defined.

(** The batch [two_frames] with crop and multiple 16. *)
Lemma returned_size_is_last_target_witness :
  two_frames <> [] /\ uniform two_frames /\ Forall valid_frame two_frames /\
  In "crop"%string fit_modes /\ In 16 round_multiples /\
  exists output w h front f,
    resize_image nearest_kernel two_frames "crop" "nearest" 16
    = Ok (output, w, h) /\
    two_frames = front ++ [f] /\
    calculate_target_dimensions (cols f) (rows f) 16 = Ok (w, h).
Proof.
  destruct two_frames_valid as (Hne & Hun & Hv).
  assert (Hfit : In "crop"%string fit_modes) by (cbn; tauto).
  assert (Hm : In 16 round_multiples) by (cbn; tauto).
  repeat (split; [assumption |]).
  destruct (returned_size_is_last_target nearest_kernel two_frames "crop"
              "nearest" 16) as [Hinv Hok].
  destruct (Hok Hne Hun Hv Hfit Hm) as (output & w & h & E).
  destruct (Hinv output w h E) as (front & f & Ef & Et).
  exists output, w, h, front, f. repeat split; assumption.
Defined.

(** The batch [two_frames] with letterbox and multiple 16. *)
Lemma output_pixels_quantized_witness :
  two_frames <> [] /\ uniform two_frames /\ Forall valid_frame two_frames /\
  In "letterbox"%string fit_modes /\ In 16 round_multiples /\
  exists output w h,
    resize_image nearest_kernel two_frames "letterbox" "lanczos" 16
    = Ok (output, w, h) /\
    forall g y x, In g output ->
      let '(r, g, b) := at_ g y x in
      quantized r /\ quantized g /\ quantized b.
Proof.
  destruct two_frames_valid as (Hne & Hun & Hv).
  assert (Hfit : In "letterbox"%string fit_modes) by (cbn; tauto).
  assert (Hm : In 16 round_multiples) by (cbn; tauto).
  repeat (split; [assumption |]).
  apply (output_pixels_quantized nearest_kernel two_frames "letterbox"
           "lanczos" 16 Hne Hun Hv Hfit Hm).
Defined.

(** ** Further properties of the node *)

(** X1. The target of a source of positive dimensions (below 2^53) for a
    multiple of the allowed set: both target dimensions are multiples of it,
    at least the source dimension, and less than one multiple above it. *)
Theorem target_is_multiple_and_covers (w h m : Z) :
  0 < w < 2 ^ 53 -> 0 < h < 2 ^ 53 -> In m round_multiples ->
  exists tw th,
    calculate_target_dimensions w h m = Ok (tw, th) /\
    (m | tw) /\ (m | th) /\
    w <= tw < w + m /\ h <= th < h + m.
Proof.
  intros Hw Hh Hm. apply round_multiples_bounds in Hm.
  unfold calculate_target_dimensions.
  rewrite !round_to_multiple_eq by lia. cbn [bind].
  do 2 eexists. split; [reflexivity |].
  destruct (ceil_multiple_spec w m ltac:(lia)) as (? & ? & ? & _).
  destruct (ceil_multiple_spec h m ltac:(lia)) as (? & ? & ? & _).
  repeat split; try assumption; lia.
Qed.

(** A 100 x 50 source with multiple 16. *)
Lemma target_is_multiple_and_covers_witness :
  (0 < 100 < 2 ^ 53) /\ (0 < 50 < 2 ^ 53) /\ In 16 round_multiples /\
  exists tw th,
    calculate_target_dimensions 100 50 16 = Ok (tw, th) /\
    (16 | tw) /\ (16 | th) /\
    100 <= tw < 100 + 16 /\ 50 <= th < 50 + 16.
Proof.
  split; [lia |]. split; [lia |]. split; [cbn; tauto |].
  apply (target_is_multiple_and_covers 100 50 16); [lia | lia | cbn; tauto].
Defined.

(** X2. For a source no larger than the target, the scaled size of
    [resize_letterbox] and [resize_smart_fill] lies between the source size
    and the target size on both axes, so the content is never shrunk and
    the padding is never negative. *)
Theorem scaled_content_between_source_and_target kernel im tw th r :
  0 < width im <= tw -> tw <= 2 ^ 51 ->
  0 < height im <= th -> th <= 2 ^ 51 ->
  exists s nw nh content,
    fit_scale (width im) (height im) tw th = Ok s /\
    scaled_size (width im) (height im) s = (nw, nh) /\
    width im <= nw <= tw /\ height im <= nh <= th /\
    PIL.resize kernel im nw nh r = Ok content /\
    size content = (nw, nh).
Proof.
  intros Hw Htw Hh Hth.
  destruct (fit_content kernel im tw th r Hw Htw Hh Hth)
    as (s & nw & nh & content & Es & Esz & Bw & Bh & Er & Ew & Eh).
  exists s, nw, nh, content. repeat split; try assumption; try lia.
  unfold size. congruence.
Qed.

(** A 100 x 50 image and its target 112 x 64. *)
Lemma scaled_content_between_source_and_target_witness :
  (0 < width (gradient 100 50) <= 112) /\ 112 <= 2 ^ 51 /\
  (0 < height (gradient 100 50) <= 64) /\ 64 <= 2 ^ 51 /\
  exists s nw nh,
    fit_scale 100 50 112 64 = Ok s /\
    scaled_size 100 50 s = (nw, nh) /\
    100 <= nw <= 112 /\ 50 <= nh <= 64.
Proof.
  assert (Hw : 0 < width (gradient 100 50) <= 112) by (cbn; lia).
  assert (Hh : 0 < height (gradient 100 50) <= 64) by (cbn; lia).
  assert (B1 : 112 <= 2 ^ 51) by lia.
  assert (B2 : 64 <= 2 ^ 51) by lia.
  repeat (split; [assumption |]).
  destruct (scaled_content_between_source_and_target nearest_kernel
              (gradient 100 50) 112 64 PIL.LANCZOS Hw B1 Hh B2)
    as (s & nw & nh & content & Es & Esz & Bw & Bh & _).
  cbn [gradient width height] in Bw, Bh.
  exists s, nw, nh. repeat split; try assumption; lia.
Defined.

(** The scenarios of the specification for a 100 x 50 source and
    multiple 16: the target is 112 x 64; the fit scale gives the scaled size
    112 x 56, hence 4 rows of padding above and 4 below; the cover scale
    gives 128 x 64, hence a crop window starting at column 8, row 0. *)
Example scenario_100x50 :
  calculate_target_dimensions 100 50 16 = Ok (112, 64) /\
  (exists s, fit_scale 100 50 112 64 = Ok s /\
             scaled_size 100 50 s = (112, 56)) /\
  (64 - 56) / 2 = 4 /\ (64 - 56) - (64 - 56) / 2 = 4 /\
  (exists s, cover_scale 100 50 112 64 = Ok s /\
             scaled_size 100 50 s = (128, 64)) /\
  (128 - 112) / 2 = 8 /\ (64 - 64) / 2 = 0.
Proof.
  split; [vm_compute; reflexivity |].
  split; [eexists; split; [reflexivity | vm_compute; reflexivity] |].
  split; [reflexivity |]. split; [reflexivity |].
  split; [eexists; split; [reflexivity | vm_compute; reflexivity] |].
  split; reflexivity.
Qed.

(** Beyond the range of image sizes the quotient is no longer exact:
    [(2^53 + 1) / 2] rounds to [2^52], and the result falls below the
    dimension. *)
Example round_to_multiple_beyond_double_range :
  round_to_multiple (2 ^ 53 + 1) 2 = Ok (2 ^ 53).
Proof. vm_compute. reflexivity. Qed.

(** *** The dimension rounder, further *)

(** X3. Rounding a rounded dimension changes nothing. *)
Theorem round_to_multiple_idempotent (d m r : Z) :
  0 < d -> d + 512 <= 2 ^ 53 -> In m round_multiples ->
  round_to_multiple d m = Ok r ->
  round_to_multiple r m = Ok r.
Proof.
  intros Hd Hb Hm Hr. apply round_multiples_bounds in Hm.
  rewrite round_to_multiple_eq in Hr by lia. injection Hr as <-.
  destruct (ceil_multiple_spec d m ltac:(lia)) as (Hdiv & Hlo & Hhi & _).
  set (r := (d + m - 1) / m * m) in *.
  rewrite round_to_multiple_eq by lia. f_equal.
  destruct (ceil_multiple_spec r m ltac:(lia)) as (_ & _ & _ & Hfix & _).
  apply Hfix, Hdiv.
Qed.

(** The dimension 100 with multiple 16: 112, and 112 again. *)
Lemma round_to_multiple_idempotent_witness :
  0 < 100 /\ 100 + 512 <= 2 ^ 53 /\ In 16 round_multiples /\
  round_to_multiple 100 16 = Ok 112 /\
  round_to_multiple 112 16 = Ok 112.
Proof.
  assert (H1 : 0 < 100) by lia.
  assert (H2 : 100 + 512 <= 2 ^ 53) by lia.
  assert (H3 : In 16 round_multiples) by (cbn; tauto).
  assert (H4 : round_to_multiple 100 16 = Ok 112) by (vm_compute; reflexivity).
  repeat (split; [assumption |]).
  apply (round_to_multiple_idempotent 100 16 112 H1 H2 H3 H4).
Defined.

(** X4. A larger dimension never gets a smaller target. *)
Theorem round_to_multiple_monotone (d d' m : Z) :
  0 < d <= d' -> d' < 2 ^ 53 -> In m round_multiples ->
  exists r r',
    round_to_multiple d m = Ok r /\
    round_to_multiple d' m = Ok r' /\
    r <= r'.
Proof.
  intros Hd Hb Hm. apply round_multiples_bounds in Hm.
  rewrite !round_to_multiple_eq by lia. do 2 eexists.
  split; [reflexivity |]. split; [reflexivity |].
  apply Z.mul_le_mono_nonneg_r; [lia |].
  apply Z.div_le_mono; lia.
Qed.

(** The dimensions 100 and 113 with multiple 16. *)
Lemma round_to_multiple_monotone_witness :
  (0 < 100 <= 113) /\ 113 < 2 ^ 53 /\ In 16 round_multiples /\
  exists r r',
    round_to_multiple 100 16 = Ok r /\
    round_to_multiple 113 16 = Ok r' /\
    r <= r'.
Proof.
  split; [lia |]. split; [lia |]. split; [cbn; tauto |].
  apply (round_to_multiple_monotone 100 113 16); [lia | lia | cbn; tauto].
Defined.

(** *** The conversions between tensors and images *)

Lemma Z_of_uint8_of_Z (z : Z) :
  0 <= z <= 255 -> Z_of_uint8 (uint8_of_Z z) = z.
Proof.
  intros Hz. unfold Z_of_uint8, uint8_of_Z.
  rewrite Z.mod_small by lia.
  destruct (Byte.of_N (Z.to_N z)) as [b |] eqn:E.
  - apply Byte.to_of_N in E. rewrite E. lia.
  - apply Byte.of_N_None_iff in E. lia.
Qed.

Lemma quantize_dequantize (k : uint8) : Np.quantize (Np.dequantize k) = k.
Proof. destruct k; vm_compute; reflexivity. Qed.

Lemma to_pil_to_tensor (im : image) x y :
  getpixel (Np.to_pil (Np.to_tensor im)) x y = getpixel im x y.
Proof.
  cbn [Np.to_pil Np.to_tensor getpixel at_].
  destruct (getpixel im x y) as [[r g] b]. cbn [Np.map_pixel].
  rewrite !quantize_dequantize. reflexivity.
Qed.

(** X5. Converting an image to a tensor and back gives the image again: every
    8-bit value [k] survives the division by 255 in [float32], the
    multiplication by 255 and the truncation. *)
Theorem image_tensor_round_trip (im : image) (k : uint8) :
  Np.quantize (Np.dequantize k) = k /\
  size (Np.to_pil (Np.to_tensor im)) = size im /\
  forall x y, getpixel (Np.to_pil (Np.to_tensor im)) x y = getpixel im x y.
Proof.
  split; [apply quantize_dequantize |]. split; [reflexivity |].
  intros x y. apply to_pil_to_tensor.
Qed.

(** X6. On a value of [0, 1] the conversion to 8 bits does not wrap: the byte is
    the integer part of the [float32] product by 255, between 0 and 255. *)
Theorem quantize_unit_interval (x : Q) :
  (0 <= x <= 1)%Q ->
  let v := Float.round Float.binary32 (x * 255) in
  (0 <= v <= 255)%Q /\
  0 <= Qfloor v <= 255 /\
  Z_of_uint8 (Np.quantize x) = Qfloor v.
Proof.
  intros [H0 H1] v.
  assert (Hv : (0 <= v <= 255)%Q).
  { destruct (Qlt_le_dec 0 x) as [Hpos | Hle].
    - assert (Hx : (0 < x * 255)%Q) by lra.
      split; [apply round_pos_nonneg; exact Hx |].
      change 255%Q with (inject_Z 255).
      apply round_le_int; cbn [prec emin binary32]; try lia.
      + exact Hx.
      + apply Qle_lt_trans with (inject_Z 255).
        * change (inject_Z 255) with 255%Q. lra.
        * rewrite (pow2_Z 24) by lia. rewrite <- Zlt_Qlt. lia.
      + change (inject_Z 255) with 255%Q. lra.
    - assert (E : Qnum x = 0).
      { destruct x as [n d]. unfold Qle in H0, Hle. cbn in H0, Hle |- *.
        lia. }
      assert (Ev : v = 0%Q).
      { unfold v, round. destruct x as [n d]. cbn in E. subst n.
        reflexivity. }
      rewrite Ev. split; [apply Qle_refl | discriminate]. }
  split; [exact Hv |].
  assert (Hf : 0 <= Qfloor v <= 255).
  { destruct Hv as [Hv0 Hv1].
    apply Qfloor_resp_le in Hv0, Hv1.
    change 0%Q with (inject_Z 0) in Hv0. change 255%Q with (inject_Z 255) in Hv1.
    rewrite Qfloor_Z in Hv0, Hv1. lia. }
  split; [exact Hf |].
  unfold Np.quantize. fold v. rewrite trunc_nonneg by apply Hv.
  apply Z_of_uint8_of_Z, Hf.
Qed.

(** The value one half becomes the byte 127. *)
Lemma quantize_unit_interval_witness :
  (0 <= 1 # 2 <= 1)%Q /\ Z_of_uint8 (Np.quantize (1 # 2)) = 127.
Proof.
  assert (H : (0 <= 1 # 2 <= 1)%Q) by (split; discriminate).
  split; [exact H |].
  destruct (quantize_unit_interval (1 # 2) H) as (_ & _ & ->).
  vm_compute. reflexivity.
Defined.

(** *** A batch already at its target size *)

Section AtTarget.

Variable kernel : PIL.Resampling -> image -> Z -> Z -> Z -> Z -> pixel.

(** Whatever the mode, the strategy keeps an image that has the target
    size. *)
Lemma dispatch_at_target im tw th r fit :
  size im = (tw, th) -> 0 < tw < 2 ^ 53 -> 0 < th < 2 ^ 53 ->
  In fit fit_modes ->
  exists out,
    (if String.eqb fit "letterbox" then resize_letterbox kernel im tw th r
     else if String.eqb fit "crop" then resize_crop kernel im tw th r
     else if String.eqb fit "fill" then resize_fill kernel im tw th r
     else if String.eqb fit "smart_fill"
          then resize_smart_fill kernel im tw th r
     else Raise UnboundLocalError) = Ok out /\
    same_image out im.
Proof.
  intros Hsz Htw Hth Hfit. unfold size in Hsz. injection Hsz as Ew Eh.
  destruct (unit_scale tw th Htw Hth)
    as [(s1 & Es1 & Esz1) (s2 & Es2 & Esz2)].
  pose proof (resize_same_size kernel im r) as Er. rewrite Ew, Eh in Er.
  assert (Zero : forall a, (a - a) / 2 = 0).
  { intros a. rewrite Z.sub_diag. reflexivity. }
  destruct (fit_modes_cases fit Hfit) as [-> | [-> | [-> | ->]]].
  - change (String.eqb "smart_fill" "letterbox") with false.
    change (String.eqb "smart_fill" "crop") with false.
    change (String.eqb "smart_fill" "fill") with false.
    change (String.eqb "smart_fill" "smart_fill") with true. cbv iota.
    rewrite resize_smart_fill_unfold, Ew, Eh, Es1. cbn [bind].
    rewrite Esz1, Er. cbn [bind]. rewrite !Zero, !Z.sub_diag.
    rewrite copyMakeBorder_ok by lia. eexists. split; [reflexivity |].
    split; [unfold size; cbn [width height]; f_equal; lia |].
    intros x y Hx Hy. cbn [width height getpixel] in *.
    rewrite !Z.sub_0_r, !borderInterpolate_inside by lia. reflexivity.
  - change (String.eqb "letterbox" "letterbox") with true. cbv iota.
    rewrite resize_letterbox_unfold, Ew, Eh, Es1. cbn [bind].
    rewrite Esz1, Er. cbn [bind]. unfold PIL.new.
    destruct (Z.ltb_spec tw 0), (Z.ltb_spec th 0); try lia.
    cbn [orb bind]. eexists. split; [reflexivity |].
    split; [unfold size; cbn [PIL.paste width height]; congruence |].
    intros x y Hx Hy. cbn [PIL.paste width height getpixel] in *.
    rewrite !Zero, !Z.sub_0_r. unfold inside. rewrite Ew, Eh.
    destruct (Z.leb_spec 0 x), (Z.ltb_spec x tw),
      (Z.leb_spec 0 y), (Z.ltb_spec y th); try lia. reflexivity.
  - change (String.eqb "crop" "letterbox") with false.
    change (String.eqb "crop" "crop") with true. cbv iota.
    rewrite resize_crop_unfold, Ew, Eh, Es2. cbn [bind].
    rewrite Esz2, Er. cbn [bind]. unfold PIL.crop. rewrite !Zero.
    destruct (Z.ltb_spec (0 + tw) 0), (Z.ltb_spec (0 + th) 0); try lia.
    cbn [orb]. eexists. split; [reflexivity |].
    split; [unfold size; cbn [width height]; f_equal; lia |].
    intros x y Hx Hy. cbn [width height getpixel] in *.
    rewrite !Z.add_0_r. unfold inside. rewrite Ew, Eh.
    destruct (Z.leb_spec 0 x), (Z.ltb_spec x tw),
      (Z.leb_spec 0 y), (Z.ltb_spec y th); try lia. reflexivity.
  - change (String.eqb "fill" "letterbox") with false.
    change (String.eqb "fill" "crop") with false.
    change (String.eqb "fill" "fill") with true. cbv iota.
    unfold resize_fill. rewrite Er. exists im. split; [reflexivity |].
    split; [reflexivity |]. intros; reflexivity.
Qed.

Lemma to_tensor_same im im' :
  same_image im im' -> same_frame (Np.to_tensor im) (Np.to_tensor im').
Proof.
  intros [Hsz Hpx]. unfold size in Hsz. injection Hsz as Ew Eh. split.
  - unfold shape. cbn. congruence.
  - intros y x Hy Hx. cbn [Np.to_tensor rows cols at_] in *.
    rewrite Hpx by assumption. reflexivity.
Qed.

(** A dimension that the multiple divides is its own target. *)
Lemma target_of_multiple (w h m : Z) :
  0 < w < 2 ^ 53 -> 0 < h < 2 ^ 53 -> 0 < m <= 2 ^ 53 ->
  (m | w) -> (m | h) ->
  calculate_target_dimensions w h m = Ok (w, h).
Proof.
  intros Hw Hh Hm Dw Dh. unfold calculate_target_dimensions.
  rewrite !round_to_multiple_eq by assumption. cbn [bind].
  destruct (ceil_multiple_spec w m ltac:(lia)) as (_ & _ & _ & Fw & _).
  destruct (ceil_multiple_spec h m ltac:(lia)) as (_ & _ & _ & Fh & _).
  rewrite (Fw Dw), (Fh Dh). reflexivity.
Qed.

(** One iteration on a frame whose dimensions the multiple divides: the
    frame comes back as its 8-bit conversion. *)
Lemma resize_one_at_target f fit method m :
  0 < rows f < 2 ^ 53 -> 0 < cols f < 2 ^ 53 ->
  (m | cols f) -> (m | rows f) ->
  In fit fit_modes -> In m round_multiples ->
  exists g,
    resize_one kernel f fit method m = Ok (g, (cols f, rows f)) /\
    shape g = shape f /\
    same_frame g (Np.to_tensor (Np.to_pil f)).
Proof.
  intros Hr Hc Dc Dr Hfit Hm. apply round_multiples_bounds in Hm.
  unfold resize_one.
  change (size (Np.to_pil f)) with (cols f, rows f). cbv iota beta.
  rewrite target_of_multiple by (assumption || lia). cbn [bind].
  destruct (dispatch_at_target (Np.to_pil f) (cols f) (rows f)
              (get_resampling_method method) fit eq_refl Hc Hr Hfit)
    as (out & -> & Hsame).
  cbn [bind]. eexists. split; [reflexivity |].
  pose proof (to_tensor_same _ _ Hsame) as Hf. split; [| exact Hf].
  destruct Hf as [Hs _]. rewrite Hs. reflexivity.
Qed.

Lemma last_targets_const (l : list (frame * (Z * Z))) t d :
  l <> [] -> (forall o, In o l -> snd o = t) ->
  last (targets l) d = Some t.
Proof.
  revert d. induction l as [| o l IH]; intros d Hne Hts; [contradiction |].
  unfold targets. cbn [map]. fold (targets l). rewrite last_cons.
  destruct l as [| o1 l1].
  - cbn. rewrite (Hts o (or_introl eq_refl)). reflexivity.
  - apply IH; [discriminate |]. intros o' Hin. apply Hts. right. exact Hin.
Qed.

(** When every iteration succeeds with the same target and every result has
    that shape, a non-empty batch is returned whole. *)
Lemma resize_image_of_iterations image fit method m outs w h :
  image <> [] ->
  Forall2 (fun f o => resize_one kernel f fit method m = Ok o /\
                      snd o = (w, h) /\ shape (fst o) = (h, w))
    image outs ->
  resize_image kernel image fit method m = Ok (map fst outs, w, h).
Proof.
  intros Hne Hall.
  assert (Hall' : Forall2 (fun f o => resize_one kernel f fit method m = Ok o)
                    image outs).
  { eapply Forall2_impl; [| exact Hall]. intros ? ? [? _]. assumption. }
  unfold resize_image. rewrite (resize_loop_ok _ _ _ _ _ _ Hall').
  cbn [bind app].
  destruct Hall as [| f0 o0 rest outs0 (Ho0 & Ht0 & Hs0) Hrest];
    [contradiction |].
  assert (Hshapes : forall o, In o outs0 -> shape (fst o) = (h, w)).
  { clear - Hrest. induction Hrest as [| ? ? ? ? Hx ? IH];
      intros o Hin; [contradiction |].
    destruct Hin as [<- | Hin]; [apply Hx | apply IH, Hin]. }
  assert (Hst : Np.stack (map fst (o0 :: outs0)) = Ok (map fst (o0 :: outs0))).
  { cbn [map Np.stack].
    replace (forallb (Np.same_shape (fst o0)) (map fst outs0)) with true;
      [reflexivity |].
    symmetry. apply forallb_forall. intros g Hg.
    apply in_map_iff in Hg. destruct Hg as (o & <- & Hin).
    pose proof (Hshapes o Hin) as Hso.
    unfold shape in Hs0, Hso. injection Hs0 as E1 E2.
    injection Hso as E3 E4. unfold Np.same_shape.
    rewrite E1, E2, E3, E4, !Z.eqb_refl. reflexivity. }
  rewrite Hst. cbn [bind].
  assert (Hlast : last (targets (o0 :: outs0)) None = Some (w, h)).
  { apply last_targets_const; [discriminate |].
    intros o [<- | Hin]; [exact Ht0 |].
    clear - Hrest Hin. induction Hrest as [| ? ? ? ? Hx ? IH];
      [contradiction |].
    destruct Hin as [<- | Hin]; [apply Hx | apply IH, Hin]. }
  rewrite Hlast. reflexivity.
Qed.

(** *** What a returning call has done *)

Lemma resize_size im w h r out :
  PIL.resize kernel im w h r = Ok out -> size out = (w, h).
Proof.
  unfold PIL.resize.
  destruct ((width im =? w) && (height im =? h)) eqn:E.
  - apply andb_true_iff in E. destruct E as [E1 E2].
    apply Z.eqb_eq in E1, E2. intros H. injection H as <-.
    unfold size. congruence.
  - destruct ((w <? 1) || (h <? 1)); [discriminate |].
    intros H. injection H as <-. reflexivity.
Qed.

(** Every strategy that returns returns an image of the target size. *)
Lemma letterbox_returns_target_size im tw th r out :
  resize_letterbox kernel im tw th r = Ok out -> size out = (tw, th).
Proof.
  rewrite resize_letterbox_unfold.
  destruct (fit_scale (width im) (height im) tw th) as [s | e];
    [| discriminate].
  cbn [bind]. destruct (scaled_size (width im) (height im) s) as [nw nh].
  destruct (PIL.resize kernel im nw nh r) as [resized | e];
    [| discriminate].
  cbn [bind]. unfold PIL.new.
  destruct ((tw <? 0) || (th <? 0)); [discriminate |].
  cbn [bind]. intros H. injection H as <-. reflexivity.
Qed.

Lemma crop_returns_target_size im tw th r out :
  resize_crop kernel im tw th r = Ok out -> size out = (tw, th).
Proof.
  rewrite resize_crop_unfold.
  destruct (cover_scale (width im) (height im) tw th) as [s | e];
    [| discriminate].
  cbn [bind]. destruct (scaled_size (width im) (height im) s) as [nw nh].
  destruct (PIL.resize kernel im nw nh r) as [resized | e];
    [| discriminate].
  cbn [bind]. unfold PIL.crop.
  destruct (_ || _); [discriminate |].
  intros H. injection H as <-. unfold size. cbn [width height].
  f_equal; lia.
Qed.

Lemma smart_fill_returns_target_size im tw th r out :
  resize_smart_fill kernel im tw th r = Ok out -> size out = (tw, th).
Proof.
  rewrite resize_smart_fill_unfold.
  destruct (fit_scale (width im) (height im) tw th) as [s | e];
    [| discriminate].
  cbn [bind]. destruct (scaled_size (width im) (height im) s) as [nw nh].
  destruct (PIL.resize kernel im nw nh r) as [resized | e] eqn:Er;
    [| discriminate].
  cbn [bind]. apply resize_size in Er. unfold size in Er.
  injection Er as Ew Eh. unfold Cv2.copyMakeBorder.
  destruct (_ || _); [discriminate |].
  intros H. injection H as <-. unfold size. cbn [width height].
  rewrite Ew, Eh. f_equal; lia.
Qed.

(** An iteration that succeeds appends an image of its target size. *)
Lemma resize_one_shape f fit method m g w h :
  resize_one kernel f fit method m = Ok (g, (w, h)) -> shape g = (h, w).
Proof.
  unfold resize_one.
  change (size (Np.to_pil f)) with (cols f, rows f). cbv iota beta.
  destruct (calculate_target_dimensions (cols f) (rows f) m)
    as [[tw th] | e]; [| discriminate].
  cbn [bind].
  destruct (String.eqb fit "letterbox");
    [| destruct (String.eqb fit "crop");
       [| destruct (String.eqb fit "fill");
          [| destruct (String.eqb fit "smart_fill")]]].
  all: match goal with
       | |- bind ?c _ = _ -> _ => destruct c as [im | e] eqn:E
       end; try discriminate.
  all: cbn [bind]; intros H; injection H as <- <- <-.
  1: apply letterbox_returns_target_size in E.
  2: apply crop_returns_target_size in E.
  3: apply resize_size in E.
  4: apply smart_fill_returns_target_size in E.
  all: unfold size in E; injection E as Ew Eh; unfold shape; cbn;
    congruence.
Qed.

(** A call returns exactly when the batch is not empty and every iteration
    succeeds with one and the same target, which is then the size of every
    image and the size returned. *)
Lemma resize_image_inv_full image fit method m output w h :
  resize_image kernel image fit method m = Ok (output, w, h) ->
  image <> [] /\
  exists outs,
    output = map fst outs /\
    Forall2 (fun f o => resize_one kernel f fit method m = Ok o /\
                        snd o = (w, h) /\ shape (fst o) = (h, w))
      image outs.
Proof.
  unfold resize_image.
  destruct (resize_loop kernel image fit method m [] None)
    as [[results target] | e] eqn:Hloop; [| discriminate].
  cbn [bind]. apply resize_loop_inv in Hloop.
  destruct Hloop as (outs & Hall & -> & ->). cbn [app].
  destruct (Np.stack (map fst outs)) as [t | e] eqn:Hst; [| discriminate].
  cbn [bind].
  destruct (last (targets outs) None) as [[fw fh] |] eqn:Hlast;
    [| discriminate].
  intros H. injection H as <- <- <-.
  assert (Hne : outs <> []).
  { intros ->. discriminate. }
  split.
  { intros ->. inversion Hall. subst. contradiction. }
  exists outs.
  assert (Et : t = map fst outs).
  { unfold Np.stack in Hst. destruct (map fst outs); [discriminate |].
    destruct (forallb _ _); [| discriminate]. congruence. }
  split; [exact Et |].
  (* every result has the shape of the first *)
  assert (Huni : exists sh, Forall (fun o => shape (fst o) = sh) outs).
  { unfold Np.stack in Hst. destruct outs as [| o0 outs0]; [contradiction |].
    cbn [map] in Hst.
    destruct (forallb (Np.same_shape (fst o0)) (map fst outs0)) eqn:Hf;
      [| discriminate].
    exists (shape (fst o0)). constructor; [reflexivity |].
    rewrite forallb_forall in Hf. apply Forall_forall. intros o Hin.
    specialize (Hf (fst o) (in_map fst _ _ Hin)).
    unfold Np.same_shape in Hf. apply andb_true_iff in Hf.
    destruct Hf as [E1 E2]. apply Z.eqb_eq in E1, E2.
    unfold shape. congruence. }
  destruct Huni as (sh & Huni).
  (* every result has the shape of its own target *)
  assert (Hown : Forall (fun o => shape (fst o) = (snd (snd o), fst (snd o)))
                   outs).
  { clear - Hall. induction Hall as [| f o ? ? Ho _ IH]; constructor;
      [| assumption].
    destruct o as [g [tw th]]. cbn [fst snd].
    eapply resize_one_shape. exact Ho. }
  (* the last target is the returned one *)
  assert (Hsh : sh = (fh, fw)).
  { destruct outs as [| o0 outs0] using rev_ind; [contradiction |].
    unfold targets in Hlast. rewrite map_app in Hlast.
    cbn [map] in Hlast. rewrite last_last in Hlast.
    injection Hlast as Hlast.
    rewrite Forall_app in Huni, Hown.
    destruct Huni as [_ Hu]. destruct Hown as [_ Ho].
    inversion Hu; subst. inversion Ho as [| ? ? Ho' _]; subst.
    rewrite Ho', Hlast. reflexivity. }
  subst sh.
  clear - Hall Huni Hown. induction Hall as [| f o l l' Ho _ IH];
    constructor.
  - inversion Huni as [| ? ? Hu _]; subst.
    inversion Hown as [| ? ? Hw _]; subst.
    split; [exact Ho |]. split; [| exact Hu].
    destruct o as [g [tw th]]. cbn [fst snd] in *.
    rewrite Hu in Hw. congruence.
  - apply IH; [inversion Huni | inversion Hown]; assumption.
Qed.

(** X7. Every image of a returned batch has the returned width and height,
    whatever the arguments were. *)
Theorem returned_size_is_every_output_size image fit method m output w h :
  resize_image kernel image fit method m = Ok (output, w, h) ->
  output <> [] /\ Forall (fun g => shape g = (h, w)) output.
Proof.
  intros H. apply resize_image_inv_full in H.
  destruct H as (Hne & outs & -> & Hall). split.
  - destruct Hall; [contradiction | discriminate].
  - clear Hne. induction Hall as [| ? ? ? ? (_ & _ & Hs) _ IH];
      constructor; assumption.
Qed.

(** X8. Two batches that the node turns into images of one size can be given to
    it as one batch: the result is the two results, one after the other. *)
Theorem resize_image_app a b fit method m oa ob w h :
  resize_image kernel a fit method m = Ok (oa, w, h) ->
  resize_image kernel b fit method m = Ok (ob, w, h) ->
  resize_image kernel (a ++ b) fit method m = Ok (oa ++ ob, w, h).
Proof.
  intros Ha Hb. apply resize_image_inv_full in Ha, Hb.
  destruct Ha as (Hna & outsa & -> & Halla).
  destruct Hb as (Hnb & outsb & -> & Hallb).
  rewrite <- map_app.
  apply resize_image_of_iterations.
  - destruct a; [contradiction | discriminate].
  - apply Forall2_app; assumption.
Qed.

(** X9. The error of the first frame that fails is the error of the call: no
    image of the frames before it is returned.  In particular a multiple of
    0 fails with the division by zero of the first frame, and an empty batch
    fails in [torch.stack]. *)
Theorem first_error_is_returned a f b fit method m e :
  Forall (fun f => exists o, resize_one kernel f fit method m = Ok o) a ->
  resize_one kernel f fit method m = Raise e ->
  resize_image kernel (a ++ f :: b) fit method m = Raise e /\
  resize_image kernel (f :: b) fit method 0 = Raise ZeroDivisionError /\
  resize_image kernel [] fit method m = Raise RuntimeError.
Proof.
  intros Ha Hf. split; [| split; reflexivity].
  unfold resize_image.
  assert (G : forall results target,
            resize_loop kernel (a ++ f :: b) fit method m results target
            = Raise e).
  { induction Ha as [| f0 a' (o & Ho) _ IH]; intros results target.
    - cbn [app resize_loop]. rewrite Hf. reflexivity.
    - cbn [app resize_loop]. rewrite Ho. cbn [bind]. destruct o. apply IH. }
  rewrite G. reflexivity.
Qed.

(** *** The reflected border in closed form *)

Lemma triangle_inside p len :
  2 <= len -> 0 <= p < len -> triangle_101 p len = p.
Proof.
  intros Hl Hp. unfold triangle_101. cbv zeta.
  rewrite Z.mod_small by lia.
  destruct (Z.ltb_spec p len); lia.
Qed.

Lemma triangle_range p len :
  2 <= len -> 0 <= triangle_101 p len < len.
Proof.
  intros Hl. unfold triangle_101. cbv zeta.
  pose proof (Z.mod_pos_bound p (2 * (len - 1)) ltac:(lia)).
  destruct (Z.ltb_spec (p mod (2 * (len - 1))) len); lia.
Qed.

Lemma triangle_opp p len :
  2 <= len -> triangle_101 (- p) len = triangle_101 p len.
Proof.
  intros Hl. unfold triangle_101. cbv zeta.
  pose proof (Z.mod_pos_bound p (2 * (len - 1)) ltac:(lia)) as Hb.
  destruct (Z.eq_dec (p mod (2 * (len - 1))) 0) as [E | E].
  - rewrite Z.mod_opp_l_z by lia. rewrite E. reflexivity.
  - rewrite Z.mod_opp_l_nz by lia.
    destruct (Z.ltb_spec (2 * (len - 1) - p mod (2 * (len - 1))) len),
      (Z.ltb_spec (p mod (2 * (len - 1))) len); lia.
Qed.

Lemma triangle_reflect p len :
  2 <= len -> triangle_101 (2 * len - 2 - p) len = triangle_101 p len.
Proof.
  intros Hl. rewrite <- (triangle_opp p len Hl).
  unfold triangle_101. cbv zeta.
  replace (2 * len - 2 - p) with (- p + 1 * (2 * (len - 1))) by lia.
  rewrite Z.mod_add by lia. reflexivity.
Qed.

Lemma reflect_101_keeps_triangle fuel p len :
  2 <= len ->
  triangle_101 (Cv2.reflect_101 fuel p len) len = triangle_101 p len.
Proof.
  intros Hl. revert p. induction fuel as [| fuel IH]; intros p.
  - cbn. destruct (_ && _); reflexivity.
  - assert (Hin : 0 <= p < len \/ ~ 0 <= p < len) by lia.
    destruct Hin as [Hin | Hout].
    + rewrite reflect_101_inside by assumption. reflexivity.
    + rewrite reflect_101_step by assumption. rewrite IH.
      destruct (Z.ltb_spec p 0).
      * apply triangle_opp, Hl.
      * apply triangle_reflect, Hl.
Qed.

(** The loop of [borderInterpolate] computes the triangle wave. *)
Lemma borderInterpolate_triangle p len :
  2 <= len -> Cv2.borderInterpolate p len = triangle_101 p len.
Proof.
  intros Hl.
  pose proof (borderInterpolate_range p len ltac:(lia)) as Hr.
  rewrite <- (triangle_inside _ len Hl Hr).
  assert (Hin : 0 <= p < len \/ ~ 0 <= p < len) by lia.
  destruct Hin as [Hin | Hout].
  - rewrite borderInterpolate_inside by assumption. reflexivity.
  - rewrite borderInterpolate_outside by (assumption || lia).
    apply reflect_101_keeps_triangle, Hl.
Qed.

(** X10. Smart fill tiles the plane with mirror images of the scaled content:
    every pixel of the output, at any distance from the content, is a pixel
    of the content; where the content has at least two pixels on both axes
    the pixel at [(x, y)] is the content pixel at the triangle wave of
    [(x - left, y - top)]; and a border of up to [scaled_w - 1] columns
    mirrors the content about its first and last column, the edge column
    itself not repeated. *)
Theorem smart_fill_mirrors_content im tw th r :
  0 < width im <= tw -> tw <= 2 ^ 51 ->
  0 < height im <= th -> th <= 2 ^ 51 ->
  exists s nw nh content out,
    fit_scale (width im) (height im) tw th = Ok s /\
    scaled_size (width im) (height im) s = (nw, nh) /\
    PIL.resize kernel im nw nh r = Ok content /\
    size content = (nw, nh) /\
    resize_smart_fill kernel im tw th r = Ok out /\
    let left := (tw - nw) / 2 in
    let top := (th - nh) / 2 in
    (forall x y, exists cx cy,
       0 <= cx < nw /\ 0 <= cy < nh /\
       getpixel out x y = getpixel content cx cy) /\
    (2 <= nw -> 2 <= nh -> forall x y,
       getpixel out x y
       = getpixel content (triangle_101 (x - left) nw)
                          (triangle_101 (y - top) nh)) /\
    (forall k y, 1 <= k < nw -> 0 <= y < nh ->
       getpixel out (left - k) (top + y) = getpixel content k y /\
       getpixel out (left + nw - 1 + k) (top + y)
       = getpixel content (nw - 1 - k) y) /\
    (forall k x, 1 <= k < nh -> 0 <= x < nw ->
       getpixel out (left + x) (top - k) = getpixel content x k /\
       getpixel out (left + x) (top + nh - 1 + k)
       = getpixel content x (nh - 1 - k)).
Proof.
  intros Hw Htw Hh Hth.
  destruct (fit_content kernel im tw th r Hw Htw Hh Hth)
    as (s & nw & nh & content & Es & Esz & Bw & Bh & Er & Ew & Eh).
  destruct (half_split (tw - nw) ltac:(lia)) as [Hl Hr].
  destruct (half_split (th - nh) ltac:(lia)) as [Ht Hb].
  exists s, nw, nh, content. eexists.
  split; [exact Es |]. split; [exact Esz |]. split; [exact Er |].
  split; [unfold size; congruence |].
  rewrite resize_smart_fill_unfold, Es. cbn [bind]. rewrite Esz, Er.
  cbn [bind]. rewrite copyMakeBorder_ok by lia.
  split; [reflexivity |]. cbv zeta. cbn [getpixel]. rewrite Ew, Eh.
  assert (Mirror : forall len k, 1 <= k < len ->
            Cv2.borderInterpolate (- k) len = k /\
            Cv2.borderInterpolate (len - 1 + k) len = len - 1 - k).
  { intros len k Hk. rewrite !borderInterpolate_triangle by lia. split.
    - rewrite triangle_opp by lia. apply triangle_inside; lia.
    - replace (len - 1 + k) with (2 * len - 2 - (len - 1 - k)) by lia.
      rewrite triangle_reflect by lia. apply triangle_inside; lia. }
  split; [| split; [| split]].
  - intros x y.
    exists (Cv2.borderInterpolate (x - (tw - nw) / 2) nw),
      (Cv2.borderInterpolate (y - (th - nh) / 2) nh).
    split; [apply borderInterpolate_range; lia |].
    split; [apply borderInterpolate_range; lia | reflexivity].
  - intros H2w H2h x y.
    rewrite !borderInterpolate_triangle by assumption. reflexivity.
  - intros k y Hk Hy.
    replace ((tw - nw) / 2 - k - (tw - nw) / 2) with (- k) by lia.
    replace ((tw - nw) / 2 + nw - 1 + k - (tw - nw) / 2)
      with (nw - 1 + k) by lia.
    replace ((th - nh) / 2 + y - (th - nh) / 2) with y by lia.
    destruct (Mirror nw k Hk) as [-> ->].
    rewrite borderInterpolate_inside by lia. split; reflexivity.
  - intros k x Hk Hx.
    replace ((th - nh) / 2 - k - (th - nh) / 2) with (- k) by lia.
    replace ((th - nh) / 2 + nh - 1 + k - (th - nh) / 2)
      with (nh - 1 + k) by lia.
    replace ((tw - nw) / 2 + x - (tw - nw) / 2) with x by lia.
    destruct (Mirror nh k Hk) as [-> ->].
    rewrite borderInterpolate_inside by lia. split; reflexivity.
Qed.

(** *** How far the crop window can leave the scaled image *)

(** The quotient of a dimension by a smaller one is at most one part in
    2^53 below the exact quotient. *)
Lemma truediv_lower (a b : Z) :
  0 < b <= a -> a < 2 ^ 53 ->
  exists q,
    Py.truediv a b = Ok q /\
    (inject_Z a * (1 - pow2 (-53)) <= q * inject_Z b)%Q.
Proof.
  intros Hb Ha. eexists. split; [apply truediv_ok; lia |].
  pose proof (inject_Z_pos b ltac:(lia)) as HB.
  pose proof (inject_Z_pos a ltac:(lia)) as HA.
  assert (HBA : (inject_Z b <= inject_Z a)%Q) by (rewrite <- Zle_Qle; lia).
  set (x := (inject_Z a / inject_Z b)%Q).
  assert (Hx : (x * inject_Z b == inject_Z a)%Q) by (unfold x; field; lra).
  assert (Hx1 : (1 <= x)%Q).
  { unfold x. apply Qle_shift_div_l; [assumption | lra]. }
  assert (Hnorm : (pow2 (emin binary64 + prec binary64 - 1) <= x)%Q).
  { apply Qle_trans with (pow2 0); [apply pow2_le; cbn; lia | exact Hx1]. }
  pose proof (round_rel_error binary64 x Hnorm) as Hrel.
  apply Qabs_Qle_condition in Hrel. destruct Hrel as [Hrel _].
  cbn [prec binary64 Z.opp] in Hrel.
  pose proof (pow2_pos (-53)) as Pu.
  set (q := round binary64 x) in *. set (u := pow2 (-53)) in *.
  assert (E : ((x - x * u) * inject_Z b <= q * inject_Z b)%Q) by nra.
  nra.
Qed.

(** A dimension multiplied by a scale that covers its target falls short of
    the target by less than one pixel before truncation, hence by at most
    one pixel after it. *)
Lemma scaled_dim_cover (ow tw : Z) (s : Q) :
  0 < ow <= tw -> tw < 2 ^ 26 -> (s <= pow2 26)%Q ->
  (inject_Z tw * (1 - pow2 (-53)) <= s * inject_Z ow)%Q ->
  tw - 1 <= trunc (Py.mul_int_float ow s).
Proof.
  intros Ho Ht Hs Hle.
  pose proof (inject_Z_pos ow ltac:(lia)) as HO.
  pose proof (inject_Z_pos tw ltac:(lia)) as HT.
  pose proof (pow2_pos (-53)) as Pu. pose proof pow2_m53 as Hu.
  pose proof (pow2_pos 26) as P26. pose proof (pow2_pos 53) as P53.
  assert (E53 : (pow2 53 == 2 * (pow2 26 * pow2 26))%Q).
  { change 53 with (1 + (26 + 26)). rewrite !pow2_add. reflexivity. }
  assert (E52 : (pow2 52 == pow2 26 * pow2 26)%Q).
  { change 52 with (26 + 26). rewrite pow2_add. reflexivity. }
  assert (HT1 : (1 <= inject_Z tw)%Q).
  { change 1%Q with (inject_Z 1). rewrite <- Zle_Qle. lia. }
  assert (HO26 : (inject_Z ow + 1 <= pow2 26)%Q).
  { rewrite (pow2_Z 26) by lia. change 1%Q with (inject_Z 1).
    rewrite <- inject_Z_plus, <- Zle_Qle. lia. }
  assert (HT26 : (inject_Z tw <= pow2 26)%Q).
  { rewrite (pow2_Z 26) by lia. rewrite <- Zle_Qle. lia. }
  assert (P26' : (1 <= pow2 26)%Q).
  { change 1%Q with (pow2 0). apply pow2_le. lia. }
  assert (Htu : (inject_Z tw * pow2 (-53) <= 1 # 2)%Q).
  { assert (E : (inject_Z tw * pow2 (-53) * pow2 53
                 <= (1 # 2) * pow2 53)%Q).
    { rewrite <- Qmult_assoc, Hu. nra. }
    nra. }
  pose proof (of_int_exact ow ltac:(lia)) as Hoi.
  assert (Hx : (inject_Z tw - (1 # 2) <= Py.of_int ow * s)%Q).
  { rewrite Hoi. lra. }
  assert (Hxpos : (0 < Py.of_int ow * s)%Q) by lra.
  assert (Hxlt : (Py.of_int ow * s < pow2 52)%Q).
  { rewrite Hoi, E52. nra. }
  assert (Eh : (inject_Z (2 * tw - 1) * pow2 (-1)
                == inject_Z tw - (1 # 2))%Q).
  { unfold Z.sub. rewrite inject_Z_plus, inject_Z_mult, inject_Z_opp.
    change (pow2 (-1)) with (1 # 2)%Q. change (inject_Z 2) with 2%Q.
    change (inject_Z 1) with 1%Q. field. }
  assert (Hlo : (inject_Z (2 * tw - 1) * pow2 (-1)
                 <= Py.mul_int_float ow s)%Q).
  { unfold Py.mul_int_float.
    apply round_ge_dyadic; cbn [prec emin binary64]; try lia.
    - exact Hxpos.
    - change (53 + -1) with 52. exact Hxlt.
    - rewrite Eh. exact Hx. }
  rewrite Eh in Hlo.
  assert (Hnn : (0 <= Py.mul_int_float ow s)%Q) by lra.
  rewrite trunc_nonneg by assumption.
  assert (Hfl : (inject_Z (tw - 1) <= Py.mul_int_float ow s)%Q).
  { unfold Z.sub. rewrite inject_Z_plus, inject_Z_opp.
    change (inject_Z 1) with 1%Q. lra. }
  apply Qfloor_resp_le in Hfl. rewrite Qfloor_Z in Hfl. exact Hfl.
Qed.

(** X11. The crop window leaves the scaled image by at most one pixel, at the
    left and at the top: for a source no larger than the target (below
    2^26) the scaled size is at least the target size less one, the window
    starts at -1 or later, every output pixel whose window position is not
    negative is the pixel of the scaled image at that position, and the
    others, in the first column or row only, are black. *)
Theorem crop_window_at_most_one_pixel_out im tw th r :
  0 < width im <= tw -> tw < 2 ^ 26 ->
  0 < height im <= th -> th < 2 ^ 26 ->
  exists s nw nh resized out,
    cover_scale (width im) (height im) tw th = Ok s /\
    scaled_size (width im) (height im) s = (nw, nh) /\
    PIL.resize kernel im nw nh r = Ok resized /\
    size resized = (nw, nh) /\
    resize_crop kernel im tw th r = Ok out /\
    size out = (tw, th) /\
    tw - 1 <= nw /\ th - 1 <= nh /\
    let left := (nw - tw) / 2 in
    let top := (nh - th) / 2 in
    -1 <= left /\ -1 <= top /\
    (forall x y, 0 <= x < tw -> 0 <= y < th ->
       0 <= x + left -> 0 <= y + top ->
       x + left < nw /\ y + top < nh /\
       getpixel out x y = getpixel resized (x + left) (y + top)) /\
    (forall x y, x + left < 0 \/ y + top < 0 -> getpixel out x y = black).
Proof.
  intros Hw Htw Hh Hth.
  destruct (truediv_ge_1 tw (width im)) as (sw & Esw & Hsw1 & Hsw & _);
    [lia | lia |].
  destruct (truediv_ge_1 th (height im)) as (sh & Esh & Hsh1 & Hsh & _);
    [lia | lia |].
  destruct (truediv_lower tw (width im)) as (sw' & Esw' & Lsw);
    [lia | lia |].
  destruct (truediv_lower th (height im)) as (sh' & Esh' & Lsh);
    [lia | lia |].
  rewrite Esw in Esw'. injection Esw' as <-.
  rewrite Esh in Esh'. injection Esh' as <-.
  pose proof (inject_Z_pos (width im) ltac:(lia)) as HW.
  pose proof (inject_Z_pos (height im) ltac:(lia)) as HH.
  assert (B26 : forall a, a < 2 ^ 26 -> (inject_Z a <= pow2 26)%Q).
  { intros a Ha. rewrite (pow2_Z 26) by lia. rewrite <- Zle_Qle. lia. }
  pose proof (B26 tw Htw) as Htw'. pose proof (B26 th Hth) as Hth'.
  pose proof (B26 (width im) ltac:(lia)) as Hw'.
  pose proof (B26 (height im) ltac:(lia)) as Hh'.
  assert (E53 : (pow2 53 == 2 * (pow2 26 * pow2 26))%Q).
  { change 53 with (1 + (26 + 26)). rewrite !pow2_add. reflexivity. }
  pose proof (pow2_pos 26) as P26.
  set (s := fmax sw sh).
  assert (Hs : (1 <= s)%Q /\ (s <= pow2 26)%Q /\ (sw <= s)%Q /\ (sh <= s)%Q).
  { unfold s. destruct (fmax_cases sw sh) as [[-> H] | [-> H]];
      repeat split; lra. }
  destruct Hs as (Hs1 & Hs2 & Hs3 & Hs4).
  destruct (scaled_dim_ge (width im) s) as [Bw _]; [lia | assumption | nra |].
  destruct (scaled_dim_ge (height im) s) as [Bh _]; [lia | assumption | nra |].
  assert (Cw : tw - 1 <= trunc (Py.mul_int_float (width im) s)).
  { apply scaled_dim_cover; try lia; try assumption. nra. }
  assert (Ch : th - 1 <= trunc (Py.mul_int_float (height im) s)).
  { apply scaled_dim_cover; try lia; try assumption. nra. }
  set (nw := trunc (Py.mul_int_float (width im) s)) in *.
  set (nh := trunc (Py.mul_int_float (height im) s)) in *.
  destruct (resize_ok kernel im nw nh r) as (resized & Er & Ew & Eh);
    [lia | lia |].
  exists s, nw, nh, resized.
  assert (Es : cover_scale (width im) (height im) tw th = Ok s).
  { unfold cover_scale. rewrite Esw, Esh. reflexivity. }
  assert (Esz : scaled_size (width im) (height im) s = (nw, nh))
    by reflexivity.
  rewrite resize_crop_unfold, Es. cbn [bind]. rewrite Esz, Er. cbn [bind].
  unfold PIL.crop.
  pose proof (Z.mul_div_le (nw - tw) 2 ltac:(lia)) as D1.
  pose proof (Z.mul_succ_div_gt (nw - tw) 2 ltac:(lia)) as D2.
  pose proof (Z.mul_div_le (nh - th) 2 ltac:(lia)) as D3.
  pose proof (Z.mul_succ_div_gt (nh - th) 2 ltac:(lia)) as D4.
  destruct (Z.ltb_spec ((nw - tw) / 2 + tw) ((nw - tw) / 2)),
    (Z.ltb_spec ((nh - th) / 2 + th) ((nh - th) / 2)); try lia.
  cbn [orb]. eexists.
  split; [reflexivity |]. split; [reflexivity |]. split; [reflexivity |].
  split; [unfold size; congruence |]. split; [reflexivity |].
  split; [unfold size; cbn [width height]; f_equal; lia |].
  split; [exact Cw |]. split; [exact Ch |]. cbv zeta.
  split; [lia |]. split; [lia |]. cbn [getpixel]. unfold inside.
  rewrite Ew, Eh. split.
  - intros x y Hx Hy Hxl Hyt.
    assert (x + (nw - tw) / 2 < nw) by lia.
    assert (y + (nh - th) / 2 < nh) by lia.
    split; [assumption |]. split; [assumption |].
    destruct (Z.leb_spec 0 (x + (nw - tw) / 2)),
      (Z.ltb_spec (x + (nw - tw) / 2) nw),
      (Z.leb_spec 0 (y + (nh - th) / 2)),
      (Z.ltb_spec (y + (nh - th) / 2) nh); try lia. reflexivity.
  - intros x y Hneg.
    destruct (Z.leb_spec 0 (x + (nw - tw) / 2)),
      (Z.leb_spec 0 (y + (nh - th) / 2)); cbn [andb]; try lia;
      try reflexivity.
    rewrite Bool.andb_false_r. reflexivity.
Qed.

End AtTarget.

Section Idempotence.

Variable kernel : PIL.Resampling -> image -> Z -> Z -> Z -> Z -> pixel.

Lemma same_frame_trans a b c :
  same_frame a b -> same_frame b c -> same_frame a c.
Proof.
  intros [Hs1 Hp1] [Hs2 Hp2]. split; [congruence |].
  intros y x Hy Hx. rewrite Hp1 by assumption. apply Hp2.
  - unfold shape in Hs1. injection Hs1 as E _. lia.
  - unfold shape in Hs1. injection Hs1 as _ E. lia.
Qed.

Lemma batch_at_target image fit method m h w :
  image <> [] -> Forall (fun f => shape f = (h, w)) image ->
  0 < h < 2 ^ 53 -> 0 < w < 2 ^ 53 -> (m | w) -> (m | h) ->
  In fit fit_modes -> In m round_multiples ->
  exists output,
    resize_image kernel image fit method m = Ok (output, w, h) /\
    Forall2 (fun g f => same_frame g (Np.to_tensor (Np.to_pil f)))
      output image.
Proof.
  intros Hne Hsh Hh Hw Dw Dh Hfit Hm.
  assert (Hall : exists outs,
            Forall2 (fun f o => resize_one kernel f fit method m = Ok o /\
                                snd o = (w, h) /\ shape (fst o) = (h, w))
              image outs /\
            Forall2 (fun g f => same_frame g (Np.to_tensor (Np.to_pil f)))
              (map fst outs) image).
  { clear Hne. induction image as [| f l IH].
    - exists []. split; constructor.
    - inversion Hsh as [| ? ? Hf Hsh']; subst.
      destruct (IH Hsh') as (outs & H1 & H2).
      unfold shape in Hf. injection Hf as Er Ec.
      destruct (resize_one_at_target kernel f fit method m)
        as (g & Eone & Hs & Hsame); try (rewrite ?Er, ?Ec; assumption).
      exists ((g, (w, h)) :: outs). split.
      + constructor; [| exact H1]. rewrite Eone, Ec, Er.
        split; [reflexivity |]. split; [reflexivity |].
        cbn [fst]. rewrite Hs. unfold shape. congruence.
      + cbn [map fst]. constructor; assumption. }
  destruct Hall as (outs & H1 & H2).
  exists (map fst outs). split; [| exact H2].
  apply (resize_image_of_iterations kernel image fit method m outs w h Hne H1).
Qed.

(** X12. On a non-empty batch of frames of one shape (H, W) with the multiple
    dividing both H and W, [resize_image] returns W and H and, whatever the
    fit mode and the method, each frame as its 8-bit conversion: nothing is
    resampled, padded or cropped. *)
Theorem batch_at_target_is_requantized image fit method m h w :
  image <> [] -> Forall (fun f => shape f = (h, w)) image ->
  0 < h < 2 ^ 53 -> 0 < w < 2 ^ 53 -> (m | w) -> (m | h) ->
  In fit fit_modes -> In m round_multiples ->
  exists output,
    resize_image kernel image fit method m = Ok (output, w, h) /\
    Forall2 (fun g f => same_frame g (Np.to_tensor (Np.to_pil f)))
      output image.
Proof. apply batch_at_target. Qed.

Lemma target_spec (w0 h0 m w h : Z) :
  0 < w0 < 2 ^ 53 -> 0 < h0 < 2 ^ 53 -> 0 < m <= 2 ^ 53 ->
  calculate_target_dimensions w0 h0 m = Ok (w, h) ->
  (m | w) /\ (m | h) /\ w0 <= w < w0 + m /\ h0 <= h < h0 + m.
Proof.
  intros Hw Hh Hm. unfold calculate_target_dimensions.
  rewrite !round_to_multiple_eq by assumption. cbn [bind].
  intros E. injection E as <- <-.
  destruct (ceil_multiple_spec w0 m ltac:(lia)) as (? & ? & ? & _).
  destruct (ceil_multiple_spec h0 m ltac:(lia)) as (? & ? & ? & _).
  repeat split; try assumption; lia.
Qed.

(** X13. Running the node on its own output, with any fit mode and method and
    the same multiple, returns the same size and the same images: the
    output is already at its target, and its values survive the conversion
    to 8 bits and back. *)
Theorem resize_image_idempotent image fit method fit' method' m :
  image <> [] -> uniform image -> Forall valid_frame image ->
  In fit fit_modes -> In fit' fit_modes -> In m round_multiples ->
  exists output w h output',
    resize_image kernel image fit method m = Ok (output, w, h) /\
    resize_image kernel output fit' method' m = Ok (output', w, h) /\
    Forall2 same_frame output' output.
Proof.
  intros Hne Hun Hvalid Hfit Hfit' Hm.
  destruct (resize_image_ok kernel image fit method m Hne Hun Hvalid Hfit Hm)
    as (outs & w & h & Eq & Hall).
  pose proof (round_multiples_bounds m Hm) as Bm.
  assert (Hwh : (m | w) /\ (m | h) /\ 0 < w < 2 ^ 53 /\ 0 < h < 2 ^ 53).
  { destruct Hall as [| f0 o0 rest outs0 (Ho0 & Ht0 & _) _];
      [contradiction |].
    inversion Hvalid as [| ? ? [Hr Hc] _]; subst.
    destruct o0 as [g0 t0]. cbn [snd] in Ht0. subst t0.
    apply resize_one_inv in Ho0. destruct Ho0 as [Et _].
    apply target_spec in Et; try lia.
    destruct Et as (? & ? & ? & ?). repeat split; try assumption; lia. }
  destruct Hwh as (Dw & Dh & Bw & Bh).
  assert (Hout : map fst outs <> []).
  { destruct Hall; [contradiction | discriminate]. }
  assert (Hshape : Forall (fun g => shape g = (h, w)) (map fst outs)).
  { clear - Hall. induction Hall as [| ? ? ? ? (_ & _ & Hs) _ IH];
      constructor; assumption. }
  destruct (batch_at_target (map fst outs) fit' method' m h w
              Hout Hshape Bh Bw Dw Dh Hfit' Hm) as (output' & Eq' & Hsame).
  exists (map fst outs), w, h, output'.
  split; [exact Eq |]. split; [exact Eq' |].
  assert (Hform : Forall (fun g => exists im, g = Np.to_tensor im)
                    (map fst outs)).
  { clear - Hall. induction Hall as [| f o ? ? (Ho & _) _ IH];
      constructor; [| assumption].
    destruct o as [g t]. apply resize_one_inv in Ho.
    destruct Ho as (_ & im & ->). exists im. reflexivity. }
  clear - Hsame Hform. induction Hsame as [| g' g l' l Hg _ IH];
    constructor.
  - inversion Hform as [| ? ? (im & ->) _]; subst.
    eapply same_frame_trans; [exact Hg |].
    split; [reflexivity |]. intros y x _ _.
    cbn [Np.to_tensor at_]. rewrite to_pil_to_tensor. reflexivity.
  - apply IH. inversion Hform; assumption.
Qed.

(** X14. The guarantee of the node: on a non-empty batch of frames of one shape
    (dimensions at most 2^25), with an offered fit mode and multiple, the
    call returns; the returned width and height are multiples of the
    multiple, every returned image has exactly that size, and the size is
    at least the size of every input frame and less than one multiple above
    it: nothing of the frame has to be scaled down. *)
Theorem node_output_is_multiple_sized image fit method m :
  image <> [] -> uniform image -> Forall valid_frame image ->
  In fit fit_modes -> In m round_multiples ->
  exists output w h,
    resize_image kernel image fit method m = Ok (output, w, h) /\
    (m | w) /\ (m | h) /\
    List.length output = List.length image /\
    Forall (fun g => shape g = (h, w)) output /\
    Forall (fun f => cols f <= w < cols f + m /\ rows f <= h < rows f + m)
      image.
Proof.
  intros Hne Hun Hvalid Hfit Hm.
  destruct (resize_image_ok kernel image fit method m Hne Hun Hvalid Hfit Hm)
    as (outs & w & h & Eq & Hall).
  pose proof (round_multiples_bounds m Hm) as Bm.
  assert (Hcov : Forall (fun f => (m | w) /\ (m | h) /\
                           cols f <= w < cols f + m /\
                           rows f <= h < rows f + m) image).
  { clear - Hall Hvalid Bm. induction Hall as [| f o ? ? (Ho & Ht & _) _ IH].
    - constructor.
    - inversion Hvalid as [| ? ? [Hr Hc] Hv']; subst.
      constructor; [| apply IH; assumption].
      destruct o as [g t]. cbn [snd] in Ht. subst t.
      apply resize_one_inv in Ho. destruct Ho as [Et _].
      apply target_spec in Et; try lia.
      destruct Et as (? & ? & ? & ?). repeat split; try assumption; lia. }
  exists (map fst outs), w, h.
  split; [exact Eq |].
  split; [| split].
  - destruct Hcov as [| ? ? (D & _) _]; [contradiction | exact D].
  - destruct Hcov as [| ? ? (_ & D & _) _]; [contradiction | exact D].
  - split; [| split].
    + rewrite length_map. symmetry. eapply Forall2_length, Hall.
    + clear - Hall. induction Hall as [| ? ? ? ? (_ & _ & Hs) _ IH];
        constructor; assumption.
    + eapply Forall_impl; [| exact Hcov]. cbn beta. intros f H.
      destruct H as (_ & _ & H1 & H2). split; assumption.
Qed.


End Idempotence.

(** A batch of two 112 x 64 frames with multiple 16. *)
Lemma batch_at_target_is_requantized_witness :
  [grey_frame 64 112 (1 # 2); grey_frame 64 112 (1 # 4)] <> [] /\
  Forall (fun f => shape f = (64, 112))
    [grey_frame 64 112 (1 # 2); grey_frame 64 112 (1 # 4)] /\
  (0 < 64 < 2 ^ 53) /\ (0 < 112 < 2 ^ 53) /\ (16 | 112) /\ (16 | 64) /\
  In "crop"%string fit_modes /\ In 16 round_multiples /\
  exists output,
    resize_image nearest_kernel
      [grey_frame 64 112 (1 # 2); grey_frame 64 112 (1 # 4)]
      "crop" "bicubic" 16 = Ok (output, 112, 64).
Proof.
  assert (H1 : [grey_frame 64 112 (1 # 2); grey_frame 64 112 (1 # 4)] <> [])
    by discriminate.
  assert (H2 : Forall (fun f => shape f = (64, 112))
                 [grey_frame 64 112 (1 # 2); grey_frame 64 112 (1 # 4)])
    by (repeat constructor).
  assert (H3 : 0 < 64 < 2 ^ 53) by lia.
  assert (H4 : 0 < 112 < 2 ^ 53) by lia.
  assert (H5 : (16 | 112)) by (exists 7; reflexivity).
  assert (H6 : (16 | 64)) by (exists 4; reflexivity).
  assert (H7 : In "crop"%string fit_modes) by (cbn; tauto).
  assert (H8 : In 16 round_multiples) by (cbn; tauto).
  repeat (split; [assumption |]).
  destruct (batch_at_target_is_requantized nearest_kernel _ "crop" "bicubic" 16 64 112
              H1 H2 H3 H4 H5 H6 H7 H8) as (output & E & _).
  exists output. exact E.
Defined.

(** The batch [two_frames], letterboxed, then cropped with another filter. *)
Lemma resize_image_idempotent_witness :
  two_frames <> [] /\ uniform two_frames /\ Forall valid_frame two_frames /\
  In "letterbox"%string fit_modes /\ In "crop"%string fit_modes /\
  In 16 round_multiples /\
  exists output w h output',
    resize_image nearest_kernel two_frames "letterbox" "lanczos" 16
    = Ok (output, w, h) /\
    resize_image nearest_kernel output "crop" "nearest" 16
    = Ok (output', w, h) /\
    Forall2 same_frame output' output.
Proof.
  destruct two_frames_valid as (Hne & Hun & Hv).
  assert (Hfit : In "letterbox"%string fit_modes) by (cbn; tauto).
  assert (Hfit' : In "crop"%string fit_modes) by (cbn; tauto).
  assert (Hm : In 16 round_multiples) by (cbn; tauto).
  repeat (split; [assumption |]).
  apply (resize_image_idempotent nearest_kernel two_frames "letterbox"
           "lanczos" "crop" "nearest" 16 Hne Hun Hv Hfit Hfit' Hm).
Defined.
(** *** Arguments outside the offered ones *)

(** A float within one part in 2^53 of a quotient [d / m] has the floor of
    the quotient. *)
Lemma floor_round_quotient (x : Q) (d m : Z) :
  0 < d < 2 ^ 53 -> 0 < m <= 2 ^ 53 ->
  (x * inject_Z m == inject_Z d)%Q ->
  Qfloor (round binary64 x) = d / m.
Proof.
  intros Hd Hm Hx.
  set (c := d / m).
  assert (Hc : c * m <= d /\ d + 1 <= (c + 1) * m).
  { pose proof (Z.mul_div_le d m ltac:(lia)).
    pose proof (Z.mul_succ_div_gt d m ltac:(lia)).
    fold c in H, H0. nia. }
  pose proof (inject_Z_pos m ltac:(lia)) as HM.
  pose proof (inject_Z_pos d ltac:(lia)) as HD.
  assert (Hxpos : (0 < x)%Q) by nra.
  destruct Hc as [Hc1 Hc2].
  rewrite Zle_Qle in Hc1, Hc2.
  rewrite inject_Z_mult in Hc1.
  rewrite inject_Z_mult, !inject_Z_plus in Hc2.
  change (inject_Z 1) with 1%Q in *.
  assert (HM1 : (1 <= inject_Z m)%Q).
  { change 1%Q with (inject_Z 1). rewrite <- Zle_Qle. lia. }
  assert (HD1 : (1 <= inject_Z d)%Q).
  { change 1%Q with (inject_Z 1). rewrite <- Zle_Qle. lia. }
  assert (HD53 : (inject_Z d < pow2 53)%Q).
  { rewrite pow2_53. rewrite <- Zlt_Qlt. lia. }
  assert (HM53 : (inject_Z m <= pow2 53)%Q).
  { rewrite pow2_53. rewrite <- Zle_Qle. lia. }
  pose proof (pow2_pos 53) as P53.
  pose proof (pow2_pos (-53)) as Pm53. pose proof pow2_m53 as Hu.
  assert (Einv : (/ inject_Z m * inject_Z m == 1)%Q) by (field; lra).
  assert (Hxd : (x <= inject_Z d)%Q) by nra.
  assert (Hxc : (inject_Z c <= x)%Q) by nra.
  assert (Hxc' : (x <= inject_Z c + 1 - / inject_Z m)%Q) by nra.
  assert (Hlo : (inject_Z c <= round binary64 x)%Q).
  { apply round_ge_int; cbn [prec emin binary64]; try lia; lra. }
  assert (Hnorm : (pow2 (emin binary64 + prec binary64 - 1) <= x)%Q).
  { apply Qle_trans with (pow2 (-53)).
    - apply pow2_le. cbn. lia.
    - assert (E : (pow2 (-53) * pow2 53 <= x * pow2 53)%Q) by nra.
      nra. }
  pose proof (round_rel_error binary64 x Hnorm) as Hrel.
  apply Qabs_Qle_condition in Hrel. destruct Hrel as [_ Hrel].
  cbn [prec binary64 Z.opp] in Hrel.
  set (u := pow2 (-53)) in *. set (P := pow2 53) in *.
  set (r := round binary64 x) in *.
  assert (Hhi : (r < inject_Z c + 1)%Q).
  { assert (E0 : (x * u * inject_Z m == inject_Z d * u)%Q).
    { rewrite <- Hx. ring. }
    assert (E1 : (inject_Z d * u < 1)%Q) by nra.
    assert (A : ((inject_Z c + 1 - x) * inject_Z m >= 1)%Q) by nra.
    assert (B : ((r - x) * inject_Z m <= x * u * inject_Z m)%Q) by nra.
    assert (E2 : (0 < (inject_Z c + 1 - r) * inject_Z m)%Q) by nra.
    nra. }
  apply Z.le_antisymm.
  - destruct (floor_bounds r) as [Hf _].
    assert (L : (inject_Z (Qfloor r) < inject_Z (c + 1))%Q).
    { rewrite inject_Z_plus. change (inject_Z 1) with 1%Q. lra. }
    rewrite <- Zlt_Qlt in L. lia.
  - apply Qfloor_resp_le in Hlo. rewrite Qfloor_Z in Hlo. exact Hlo.
Qed.

(** X15. [round_to_multiple] outside the offered multiples: a multiple of 0 is a
    division by zero whatever the dimension; the dimension 0 is its own
    target; and a negative multiple does not fail but rounds a positive
    dimension (below 2^53) down, to the largest multiple of its absolute
    value that is at most the dimension. *)
Theorem round_to_multiple_unoffered_multiples (d m : Z) :
  round_to_multiple d 0 = Raise ZeroDivisionError /\
  (m <> 0 -> round_to_multiple 0 m = Ok 0) /\
  (0 < d < 2 ^ 53 -> 0 < m <= 2 ^ 53 ->
   round_to_multiple d (- m) = Ok (d / m * m) /\
   d - m < d / m * m <= d).
Proof.
  split; [reflexivity |]. split.
  - intros Hm. unfold round_to_multiple, Py.truediv.
    apply Z.eqb_neq in Hm. rewrite Hm. cbn [bind].
    assert (E : round binary64 (inject_Z 0 / inject_Z m) = 0%Q).
    { unfold round. destruct m; reflexivity. }
    rewrite E. reflexivity.
  - intros Hd Hm. split.
    + unfold round_to_multiple. rewrite truediv_ok by lia. cbn [bind].
      f_equal.
      set (x := (inject_Z d / inject_Z (- m))%Q).
      assert (Hneg : round binary64 x = Qred (- round_pos binary64 (- x))).
      { unfold x, round. destruct d as [| p | p]; try lia.
        destruct m as [| q | q]; try lia. reflexivity. }
      pose proof (inject_Z_pos m ltac:(lia)) as HM.
      pose proof (inject_Z_pos d ltac:(lia)) as HD.
      assert (Hx : (- x * inject_Z m == inject_Z d)%Q).
      { unfold x. rewrite inject_Z_opp. field. lra. }
      assert (Hpos : (0 < - x)%Q) by nra.
      unfold ceil. rewrite Hneg, Qred_correct.
      rewrite <- (round_eq binary64 (- x) Hpos).
      unfold Qceiling. rewrite Qopp_involutive.
      rewrite (floor_round_quotient (- x) d m Hd Hm Hx). ring.
    + pose proof (Z.mul_div_le d m ltac:(lia)).
      pose proof (Z.mul_succ_div_gt d m ltac:(lia)). lia.
Qed.

(** The dimension 5 with multiple -2 gives 4. *)
Lemma round_to_multiple_unoffered_multiples_witness :
  (0 < 5 < 2 ^ 53) /\ (0 < 2 <= 2 ^ 53) /\ 2 <> 0 /\
  round_to_multiple 0 2 = Ok 0 /\
  round_to_multiple 5 (- 2) = Ok (5 / 2 * 2).
Proof.
  assert (H1 : 0 < 5 < 2 ^ 53) by lia.
  assert (H2 : 0 < 2 <= 2 ^ 53) by lia.
  assert (H3 : 2 <> 0) by lia.
  repeat (split; [assumption |]).
  destruct (round_to_multiple_unoffered_multiples 5 2) as (_ & Hz & Hn).
  split; [apply Hz, H3 | apply (Hn H1 H2)].
Defined.

(** *** The table of filters *)

(** X16. [get_resampling_method] gives different filters for different offered
    names, each offered name has an entry of the table, and the fallback
    filter is the one of "lanczos". *)
Theorem offered_methods_select_distinct_filters (a b : string) :
  In a methods -> In b methods ->
  (exists r, In (a, r) method_map /\ get_resampling_method a = r) /\
  (get_resampling_method a = get_resampling_method b -> a = b) /\
  (get_resampling_method a = PIL.LANCZOS -> a = "lanczos"%string).
Proof.
  unfold methods. cbn [In].
  intros Ha Hb.
  repeat match goal with
         | H : _ \/ _ |- _ => destruct H as [H | H]
         | H : False |- _ => contradiction
         end; subst;
    (split; [eexists; split; [| reflexivity]; cbn; tauto |]);
    split; intros E; try reflexivity; vm_compute in E; discriminate.
Qed.

(** The names "box" and "nearest". *)
Lemma offered_methods_select_distinct_filters_witness :
  In "box"%string methods /\ In "nearest"%string methods /\
  get_resampling_method "box" = PIL.BOX /\
  (get_resampling_method "box" = get_resampling_method "nearest" ->
   "box"%string = "nearest"%string).
Proof.
  assert (Ha : In "box"%string methods) by (cbn; tauto).
  assert (Hb : In "nearest"%string methods) by (cbn; tauto).
  repeat (split; [assumption |]).
  destruct (offered_methods_select_distinct_filters "box" "nearest" Ha Hb)
    as (_ & Hinj & _).
  split; [reflexivity | exact Hinj].
Defined.

(** *** Instances *)

(** A batch of two 100 x 50 frames, with smart fill and multiple 16. *)
Lemma node_output_is_multiple_sized_witness :
  two_frames <> [] /\ uniform two_frames /\ Forall valid_frame two_frames /\
  In "smart_fill"%string fit_modes /\ In 16 round_multiples /\
  exists output w h,
    resize_image nearest_kernel two_frames "smart_fill" "lanczos" 16
    = Ok (output, w, h) /\
    (16 | w) /\ (16 | h).
Proof.
  destruct two_frames_valid as (Hne & Hun & Hv).
  assert (Hfit : In "smart_fill"%string fit_modes) by (cbn; tauto).
  assert (Hm : In 16 round_multiples) by (cbn; tauto).
  repeat (split; [assumption |]).
  destruct (node_output_is_multiple_sized nearest_kernel two_frames
              "smart_fill" "lanczos" 16 Hne Hun Hv Hfit Hm)
    as (output & w & h & E & Dw & Dh & _).
  exists output, w, h. repeat split; assumption.
Defined.

(** A 2 x 2 frame with fill and multiple 2. *)
Lemma returned_size_is_every_output_size_witness :
  exists output,
    resize_image nearest_kernel [grey_frame 2 2 (1 # 2)] "fill" "lanczos" 2
    = Ok (output, 2, 2) /\
    output <> [] /\ Forall (fun g => shape g = (2, 2)) output.
Proof.
  eexists.
  match goal with
  | |- ?A /\ _ => assert (E : A) by (vm_compute; reflexivity)
  end.
  split; [exact E |].
  exact (returned_size_is_every_output_size nearest_kernel _ _ _ _ _ _ _ E).
Defined.

(** Two batches of one 2 x 2 frame each. *)
Lemma resize_image_app_witness :
  exists oa ob,
    resize_image nearest_kernel [grey_frame 2 2 (1 # 2)] "fill" "lanczos" 2
    = Ok (oa, 2, 2) /\
    resize_image nearest_kernel [grey_frame 2 2 (1 # 4)] "fill" "lanczos" 2
    = Ok (ob, 2, 2) /\
    resize_image nearest_kernel
      ([grey_frame 2 2 (1 # 2)] ++ [grey_frame 2 2 (1 # 4)])
      "fill" "lanczos" 2
    = Ok (oa ++ ob, 2, 2).
Proof.
  do 2 eexists.
  match goal with
  | |- ?A /\ ?B /\ _ =>
      assert (Ea : A) by (vm_compute; reflexivity);
      assert (Eb : B) by (vm_compute; reflexivity)
  end.
  split; [exact Ea |]. split; [exact Eb |].
  exact (resize_image_app nearest_kernel _ _ _ _ _ _ _ _ _ Ea Eb).
Defined.

(** A 2 x 2 frame followed by a frame of three columns and no rows, with
    fill and multiple 2: the target of the second frame is 4 x 0, which PIL
    refuses, and that is the error of the call. *)
Lemma first_error_is_returned_witness :
  Forall (fun f => exists o,
            resize_one nearest_kernel f "fill" "lanczos" 2 = Ok o)
    [grey_frame 2 2 (1 # 2)] /\
  resize_one nearest_kernel (grey_frame 0 3 (1 # 2)) "fill" "lanczos" 2
  = Raise ValueError /\
  resize_image nearest_kernel
    ([grey_frame 2 2 (1 # 2)] ++ grey_frame 0 3 (1 # 2) :: [])
    "fill" "lanczos" 2
  = Raise ValueError.
Proof.
  assert (Ha : Forall (fun f => exists o,
                  resize_one nearest_kernel f "fill" "lanczos" 2 = Ok o)
                 [grey_frame 2 2 (1 # 2)]).
  { constructor; [| constructor]. eexists. vm_compute. reflexivity. }
  assert (Hf : resize_one nearest_kernel (grey_frame 0 3 (1 # 2))
                 "fill" "lanczos" 2 = Raise ValueError)
    by (vm_compute; reflexivity).
  split; [exact Ha |]. split; [exact Hf |].
  exact (proj1 (first_error_is_returned nearest_kernel _ _ [] _ _ _ _ Ha Hf)).
Defined.

(** A 3 x 5 gradient in a 6 x 6 target: the scaled content is 3 x 6, with a
    border of one column on the left and two on the right. *)
Lemma smart_fill_mirrors_content_witness :
  (0 < width (gradient 3 5) <= 6) /\ 6 <= 2 ^ 51 /\
  (0 < height (gradient 3 5) <= 6) /\ 6 <= 2 ^ 51 /\
  exists content out,
    PIL.resize nearest_kernel (gradient 3 5) 3 6 PIL.LANCZOS = Ok content /\
    resize_smart_fill nearest_kernel (gradient 3 5) 6 6 PIL.LANCZOS = Ok out /\
    getpixel out 0 0 = getpixel content 1 0 /\
    getpixel out 5 0 = getpixel content 0 0.
Proof.
  assert (H1 : 0 < width (gradient 3 5) <= 6) by (cbn; lia).
  assert (H2 : 6 <= 2 ^ 51) by lia.
  assert (H3 : 0 < height (gradient 3 5) <= 6) by (cbn; lia).
  split; [exact H1 |]. split; [exact H2 |].
  split; [exact H3 |]. split; [exact H2 |].
  destruct (smart_fill_mirrors_content nearest_kernel (gradient 3 5) 6 6
              PIL.LANCZOS H1 H2 H3 H2)
    as (s & nw & nh & content & out & Es & Esz & Er & _ & Eo & _ & Htri & _).
  vm_compute in Es. injection Es as <-.
  vm_compute in Esz. injection Esz as <- <-.
  exists content, out.
  split; [exact Er |]. split; [exact Eo |].
  split; [apply (Htri ltac:(lia) ltac:(lia) 0 0)
         | apply (Htri ltac:(lia) ltac:(lia) 5 0)].
Defined.

(** A 100 x 50 gradient cropped to 112 x 64. *)
Lemma crop_window_at_most_one_pixel_out_witness :
  (0 < width (gradient 100 50) <= 112) /\ 112 < 2 ^ 26 /\
  (0 < height (gradient 100 50) <= 64) /\ 64 < 2 ^ 26 /\
  exists out,
    resize_crop nearest_kernel (gradient 100 50) 112 64 PIL.BICUBIC = Ok out /\
    size out = (112, 64).
Proof.
  assert (H1 : 0 < width (gradient 100 50) <= 112) by (cbn; lia).
  assert (H2 : 112 < 2 ^ 26) by lia.
  assert (H3 : 0 < height (gradient 100 50) <= 64) by (cbn; lia).
  assert (H4 : 64 < 2 ^ 26) by lia.
  repeat (split; [assumption |]).
  destruct (crop_window_at_most_one_pixel_out nearest_kernel
              (gradient 100 50) 112 64 PIL.BICUBIC H1 H2 H3 H4)
    as (s & nw & nh & resized & out & _ & _ & _ & _ & Eo & Esz & _).
  exists out. split; assumption.
Defined.
